(** * MiJIT: machine-code synthesis and executable-memory lifecycle

    A shallow embedding of [main.cpp]: the four architecture templates,
    [append_message_size], the payload loop, [estimate_memory_size] and the
    [mmap]/[mprotect]/[munmap] lifecycle of [main]'s [try] block.

    Conventions.
    - [uint8_t] values are [Z] in [0, 256); [static_cast<uint8_t>] is [u8].
    - [size_t] values are [Z] in [0, 2^64); unsigned arithmetic wraps
      ([wrap64]).
    - [std::vector<uint8_t>] is [list Z]; [operator[]] outside the vector is
      undefined behaviour in the source and [None] here.
    - The [#if] ladder on [__linux__]/[__APPLE__]/[__x86_64__]/[__aarch64__]
      is a parameter of type [arch].
    - [int] values are [Z] in [-2^31, 2^31); signed overflow is undefined
      behaviour in the source and [None] (or [Undefined]) here.
    - The sizing loop has no bound, so it is run for a number of iterations;
      statements about [main] assume that it has returned, and the section
      on [estimate_memory_size] says when it does.

    The two earlier revisions of the file kept in the repository (the
    x86-64-only one and the first multi-platform one) have the same
    [estimate_memory_size] and the same stores in [append_message_size]. *)

From Stdlib Require Import ZArith Lia String Ascii.
From stdpp Require Import base option list strings gmap.

Local Open Scope Z_scope.

(** ** Machine integers *)

Definition u8 (z : Z) : Z := z mod 256.

Definition SIZE_BITS : Z := 64.
Definition SIZE_MAX : Z := 2 ^ SIZE_BITS - 1.
Definition wrap64 (z : Z) : Z := z mod 2 ^ SIZE_BITS.

(** ** Architecture profiles (the preprocessor ladder) *)

Inductive arch : Type :=
| LinuxX86_64          (* defined(__linux__) && defined(__x86_64__) *)
| MacOSX86_64          (* defined(__APPLE__) && defined(__x86_64__) *)
| LinuxARM64           (* defined(__linux__) && defined(__aarch64__) *)
| AppleSiliconARM64.   (* defined(__APPLE__) && defined(__aarch64__) *)

#[global] Instance arch_eq_dec : EqDecision arch.
Proof. solve_decision. Defined.

(** ** The message *)

Definition newline : string := String (ascii_of_nat 10) EmptyString.

(** [std::string{"Hello, "} + name + "!\n"] *)
Definition hello_name_of (name : string) : string :=
  ("Hello, " ++ name ++ "!" ++ newline)%string.

(** [hello_name.length()].  A [std::string] is always shorter than [2^64],
    so the [size_t] it returns is the length itself. *)
Definition message_length (hello_name : string) : Z :=
  Z.of_nat (String.length hello_name).

(** [static_cast<uint8_t>(character)] for each character of the message. *)
Definition byte_of_char (c : ascii) : Z := Z.of_N (N_of_ascii c).

Definition payload_bytes (hello_name : string) : list Z :=
  byte_of_char <$> list_ascii_of_string hello_name.

(** ** STEP 4: the machine-code templates *)

Definition machine_code_template (a : arch) : list Z :=
  match a with
  | LinuxX86_64 =>
      [ 0x48; 0xc7; 0xc0; 0x01; 0x00; 0x00; 0x00;   (* mov rax, 1 *)
        0x48; 0xc7; 0xc7; 0x01; 0x00; 0x00; 0x00;   (* mov rdi, 1 *)
        0x48; 0x8d; 0x35; 0x0a; 0x00; 0x00; 0x00;   (* lea rsi, [rip+10] *)
        0x48; 0xc7; 0xc2; 0x00; 0x00; 0x00; 0x00;   (* mov rdx, 0 *)
        0x0f; 0x05;                                 (* syscall *)
        0xc3 ]                                      (* ret *)
  | MacOSX86_64 =>
      [ 0x48; 0xc7; 0xc0; 0x04; 0x00; 0x00; 0x02;   (* mov rax, 0x02000004 *)
        0x48; 0xc7; 0xc7; 0x01; 0x00; 0x00; 0x00;   (* mov rdi, 1 *)
        0x48; 0x8d; 0x35; 0x0a; 0x00; 0x00; 0x00;   (* lea rsi, [rip+10] *)
        0x48; 0xc7; 0xc2; 0x00; 0x00; 0x00; 0x00;   (* mov rdx, 0 *)
        0x0f; 0x05;                                 (* syscall *)
        0xc3 ]                                      (* ret *)
  | LinuxARM64 =>
      [ 0x20; 0x00; 0x80; 0xd2;                     (* mov x0, #1 *)
        0x41; 0x00; 0x00; 0x10;                     (* adr x1, #8 *)
        0x42; 0x00; 0x80; 0xd2;                     (* mov x2, #2 *)
        0x08; 0x08; 0x80; 0xd2;                     (* mov x8, #64 *)
        0x01; 0x00; 0x00; 0xd4;                     (* svc #0 *)
        0xc0; 0x03; 0x5f; 0xd6 ]                    (* ret *)
  | AppleSiliconARM64 =>
      [ 0x00; 0x00; 0x80; 0xd2;                     (* mov x0, #0 *)
        0xc0; 0x03; 0x5f; 0xd6 ]                    (* ret *)
  end.

(** ** STEP 5: [append_message_size] *)

(** [machine_code[i] = v].  Indexing past the end of a [std::vector] is
    undefined behaviour; the embedding reports it as [None]. *)
Definition vec_store (i : nat) (v : Z) (machine_code : list Z)
  : option (list Z) :=
  if decide (i < length machine_code)%nat
  then Some (<[i := v]> machine_code)
  else None.

Definition append_message_size (a : arch) (machine_code : list Z)
    (hello_name : string) : option (list Z) :=
  match a with
  | AppleSiliconARM64 =>
      (* (void)machine_code; (void)hello_name; *)
      Some machine_code
  | LinuxX86_64 | MacOSX86_64 =>
      let message_size := message_length hello_name in
      mc ← vec_store 24
             (u8 (Z.shiftr (Z.land message_size 0xFF) 0)) machine_code;
      mc ← vec_store 25
             (u8 (Z.shiftr (Z.land message_size 0xFF00) 8)) mc;
      mc ← vec_store 26
             (u8 (Z.shiftr (Z.land message_size 0xFF0000) 16)) mc;
      vec_store 27
             (u8 (Z.shiftr (Z.land message_size 0xFF000000) 24)) mc
  | LinuxARM64 =>
      let message_size := message_length hello_name in
      let encoded_size := wrap64 (Z.shiftl (Z.land message_size 0xFFFF) 5) in
      mc ← vec_store 8
             (u8 (Z.shiftr (Z.land encoded_size 0xFF) 0)) machine_code;
      vec_store 9
             (u8 (Z.shiftr (Z.land encoded_size 0xFF00) 8)) mc
  end.

(** ** STEP 6: appending the text behind the instructions *)

(** [#if !defined(__APPLE__) || !defined(__aarch64__)] *)
Definition appends_payload (a : arch) : bool :=
  match a with
  | AppleSiliconARM64 => false
  | _ => true
  end.

(** The [for (const auto character : hello_name) push_back] loop. *)
Definition append_payload (a : arch) (machine_code : list Z)
    (hello_name : string) : list Z :=
  if appends_payload a
  then fold_left (fun mc character => mc ++ [byte_of_char character])
                 (list_ascii_of_string hello_name) machine_code
  else machine_code.

(** Steps 4 to 6 of [main] in sequence. *)
Definition build_machine_code (a : arch) (hello_name : string)
  : option (list Z) :=
  mc ← append_message_size a (machine_code_template a) hello_name;
  Some (append_payload a mc hello_name).

(** ** [estimate_memory_size] *)

(** The [while (true)] loop, with [factor] as its state.  The loop has no
    bound in the source, so the embedding counts iterations: [None] means
    the loop is still running after [fuel] iterations.
    [page_size_multiple] is [static_cast<size_t>(sysconf(_SC_PAGE_SIZE))]. *)
Fixpoint estimate_loop (fuel : nat) (page_size_multiple : Z)
    (machine_code_size : Z) (factor : Z) : option Z :=
  match fuel with
  | O => None
  | S fuel' =>
      let required_memory_size := wrap64 (factor * page_size_multiple) in
      if machine_code_size <=? required_memory_size
      then Some required_memory_size
      else estimate_loop fuel' page_size_multiple machine_code_size
             (wrap64 (factor + 1))
  end.

Definition estimate_memory_size (fuel : nat) (page_size_multiple : Z)
    (machine_code_size : Z) : option Z :=
  estimate_loop fuel page_size_multiple machine_code_size 1.

(** ** The process, the kernel and the lifecycle of [main]

    [main] talks to the kernel through [mmap], [mprotect] and [munmap], runs
    the generated code and writes to the two output streams.  The kernel's
    answers are inputs of the model ([kernel]); the process state is the
    table of live mappings together with the trace of everything the process
    did, in order. *)

Inductive prot : Type :=
| PROT_READ_WRITE      (* PROT_READ | PROT_WRITE *)
| PROT_READ_EXEC.      (* PROT_READ | PROT_EXEC *)

Record mapping : Type := Mapping { map_length : Z; map_prot : prot }.

Inductive event : Type :=
| EMmap (length : Z) (p : prot) (ret : option Z)
| ECopy (dest : Z) (bytes : list Z)
| EMprotect (addr length : Z) (p : prot) (ret : Z)
| ECall (addr : Z)
| EMunmap (addr length : Z)
| ECout (s : string)
| ECoutHex (z : Z)
| ECoutDec (z : Z)
| ECerr (s : string).

Record kernel : Type := Kernel {
  page_size : Z;             (* static_cast<size_t>(sysconf(_SC_PAGE_SIZE)) *)
  mmap_answer : option Z;    (* the address, or None for MAP_FAILED *)
  mprotect_answer : bool;    (* true: returns 0; false: returns -1 *)
  call_answer : Z            (* what the generated function returns *)
}.

Record process : Type := Process {
  mappings : gmap Z mapping;
  trace : list event
}.

(** How a piece of [main] can end. *)
Inductive outcome (A : Type) : Type :=
| Returns (a : A)
| Throws (what : string)     (* std::runtime_error{what} in flight *)
| Undefined                  (* undefined behaviour in the source *)
| Running.                   (* the sizing loop has not returned yet *)
Arguments Returns {A} a.
Arguments Throws {A} what.
Arguments Undefined {A}.
Arguments Running {A}.

Definition M (A : Type) : Type := process → outcome A * process.

#[global] Instance M_ret : MRet M := λ A a w, (Returns a, w).
#[global] Instance M_bind : MBind M := λ A B f m w,
  match m w with
  | (Returns a, w') => f a w'
  | (Throws what, w') => (Throws what, w')
  | (Undefined, w') => (Undefined, w')
  | (Running, w') => (Running, w')
  end.

Definition throw {A} (what : string) : M A := λ w, (Throws what, w).

(** [try { body } catch (const std::exception& e) { handler e.what() }] *)
Definition try_catch {A} (body : M A) (handler : string → M A) : M A := λ w,
  match body w with
  | (Throws what, w') => handler what w'
  | r => r
  end.

Definition defined {A} (o : option A) : M A := λ w,
  match o with Some a => (Returns a, w) | None => (Undefined, w) end.

Definition returned {A} (o : option A) : M A := λ w,
  match o with Some a => (Returns a, w) | None => (Running, w) end.

Definition log (e : event) (w : process) : process :=
  {| mappings := mappings w; trace := trace w ++ [e] |}.

Definition emit (es : list event) : M unit := λ w,
  (Returns (), {| mappings := mappings w; trace := trace w ++ es |}).

Definition cout (s : string) : M unit := emit [ECout s].
Definition cerr (s : string) : M unit := emit [ECerr s].

(** [mmap(nullptr, length, PROT_READ | PROT_WRITE,
          MAP_PRIVATE | MAP_ANONYMOUS, -1, 0)]; [MAP_JIT] is added where the
    platform defines it.  Without [MAP_FIXED] the kernel picks an address
    that is not in use; the statements that compare mapping tables say so
    as a hypothesis. *)
Definition mmap (k : kernel) (length : Z) : M (option Z) := λ w,
  match mmap_answer k with
  | None => (Returns None, log (EMmap length PROT_READ_WRITE None) w)
  | Some addr =>
      (Returns (Some addr),
       {| mappings := <[addr := Mapping length PROT_READ_WRITE]> (mappings w);
          trace := trace w ++ [EMmap length PROT_READ_WRITE (Some addr)] |})
  end.

(** [std::copy(machine_code.begin(), machine_code.end(), memory)] *)
Definition copy (memory : Z) (machine_code : list Z) : M unit :=
  emit [ECopy memory machine_code].

(** [mprotect(addr, length, PROT_READ | PROT_EXEC)] *)
Definition mprotect (k : kernel) (addr length : Z) : M Z := λ w,
  if mprotect_answer k
  then (Returns 0,
        {| mappings := alter (λ m, Mapping (map_length m) PROT_READ_EXEC)
                             addr (mappings w);
           trace := trace w ++ [EMprotect addr length PROT_READ_EXEC 0] |})
  else (Returns (-1), log (EMprotect addr length PROT_READ_EXEC (-1)) w).

(** [munmap(addr, length)]; the source ignores what it returns. *)
Definition munmap (addr length : Z) : M unit := λ w,
  (Returns (),
   {| mappings := match mappings w !! addr with
                  | Some m => if decide (map_length m = length)
                              then delete addr (mappings w)
                              else mappings w
                  | None => mappings w
                  end;
      trace := trace w ++ [EMunmap addr length] |}).

(** Calling the bytes at [memory] as a function.  What the generated
    instructions do is outside the model; the call is recorded and its
    return value is the kernel record's [call_answer]. *)
Definition call (k : kernel) (memory : Z) : M Z := λ w,
  (Returns (call_answer k), log (ECall memory) w).

(** [<cstdlib>] *)
Definition EXIT_SUCCESS : Z := 0.
Definition EXIT_FAILURE : Z := 1.

(** STEP 3: the platform banner. *)
Definition platform_banner (a : arch) : list event :=
  match a with
  | LinuxX86_64 => [ECout ("Linux x86-64" ++ newline)]
  | MacOSX86_64 => [ECout ("macOS x86-64" ++ newline)]
  | LinuxARM64 => [ECout ("Linux ARM64" ++ newline)]
  | AppleSiliconARM64 =>
      [ECout ("Apple Silicon ARM64" ++ newline);
       ECout ("Note: Using simplified JIT approach due to system call "
              ++ "security restrictions on Apple Silicon." ++ newline)]
  end.

(** The largest [int]; it has 32 bits on the four platforms. *)
Definition INT_MAX : Z := 2 ^ 31 - 1.

(** [show_machine_code]: the loop over the bytes, seven to a line.  Its
    [counter] is an [int] ([auto counter = 0]), so [++counter] at [INT_MAX]
    is a signed overflow: undefined behaviour in the source, [None] here. *)
Fixpoint show_bytes (counter : Z) (machine_code : list Z)
  : option (list event) :=
  match machine_code with
  | [] => Some []
  | byte :: rest =>
      if decide (counter < INT_MAX)
      then
        let counter := counter + 1 in
        printed ← show_bytes counter rest;
        Some ([ECoutHex byte; ECout " "]
              ++ (if counter mod 7 =? 0 then [ECout newline] else [])
              ++ printed)
      else None
  end.

Definition show_machine_code (machine_code : list Z) : M unit :=
  printed ← defined (show_bytes 0 machine_code);
  emit ([ECout (newline ++ "Machine code generated:" ++ newline)]
        ++ printed
        ++ [ECout (newline ++ newline)]).

(** STEP 13 *)
Definition execute (k : kernel) (a : arch) (memory : Z)
    (hello_name : string) : M unit :=
  match a with
  | AppleSiliconARM64 =>
      result ← call k memory;
      emit [ECout "JIT executed successfully (returned: ";
            ECoutDec result;
            ECout (")" ++ newline)];;
      cout hello_name
  | _ =>
      call k memory;;
      mret ()
  end.

(** The body of the [try] block, STEPS 8 to 14. *)
Definition try_block (fuel : nat) (k : kernel) (a : arch)
    (hello_name : string) (machine_code : list Z) : M unit :=
  required_memory_size ←
    returned (estimate_memory_size fuel (page_size k)
                (Z.of_nat (length machine_code)));
  memory ← mmap k required_memory_size;
  match memory with
  | None => throw "Failed to allocate memory for machine code"
  | Some memory =>
      copy memory machine_code;;
      r ← mprotect k memory required_memory_size;
      if r =? -1
      then munmap memory required_memory_size;;
           throw "Failed to make memory executable"
      else execute k a memory hello_name;;
           munmap memory required_memory_size
  end.

(** [main], from the line read from standard input to the exit code. *)
Definition main (fuel : nat) (k : kernel) (a : arch) (name : string) : M Z :=
  cout ("What is your name?" ++ newline);;
  let hello_name := hello_name_of name in
  cout "Platform detected: ";;
  emit (platform_banner a);;
  machine_code ← defined (build_machine_code a hello_name);
  show_machine_code machine_code;;
  failed ← try_catch
    (try_block fuel k a hello_name machine_code;;
     mret None)
    (λ what,
       cerr ("Error: " ++ what ++ newline);;
       mret (Some EXIT_FAILURE));
  match failed with
  | Some code => mret code
  | None => mret EXIT_SUCCESS
  end.

(** Three kernels for 4096-byte pages: one grants everything, one refuses
    the permission flip, one refuses the allocation. *)
Definition kernel_granting : kernel := Kernel 4096 (Some 65536) true 0.
Definition kernel_seal_denied : kernel := Kernel 4096 (Some 65536) false 0.
Definition kernel_alloc_denied : kernel := Kernel 4096 None true 0.

(** ** Reading a trace *)

(** The events that use the region at [addr]: its address or its size. *)
Definition uses_region (addr : Z) (e : event) : bool :=
  match e with
  | EMmap _ _ ret => bool_decide (ret = Some addr)
  | ECopy dest _ => bool_decide (dest = addr)
  | EMprotect a _ _ _ => bool_decide (a = addr)
  | ECall a => bool_decide (a = addr)
  | EMunmap a _ => bool_decide (a = addr)
  | ECout _ | ECoutHex _ | ECoutDec _ | ECerr _ => false
  end.

Definition is_munmap (e : event) : bool :=
  match e with EMunmap _ _ => true | _ => false end.

Definition is_syscall_or_call (e : event) : bool :=
  match e with
  | EMmap _ _ _ | ECopy _ _ | EMprotect _ _ _ _ | ECall _ | EMunmap _ _ => true
  | _ => false
  end.

(** What reached the error stream, in order. *)
Fixpoint stderr_of (t : list event) : string :=
  match t with
  | [] => EmptyString
  | ECerr s :: t' => (s ++ stderr_of t')%string
  | _ :: t' => stderr_of t'
  end.

(** The file starts with nothing mapped and nothing done. *)
Definition fresh_process : process := {| mappings := ∅; trace := [] |}.

(** ** Reading a buffer *)

(** The [width] bytes of a buffer that start at index [off]. *)
Definition field (off width : nat) (machine_code : list Z) : list Z :=
  take width (drop off machine_code).

(** The number a run of bytes denotes, least significant byte first. *)
Fixpoint le_value (bytes : list Z) : Z :=
  match bytes with
  | [] => 0
  | b :: rest => b + 256 * le_value rest
  end.

(** The [width] low bytes of [v], least significant first. *)
Fixpoint le_bytes (width : nat) (v : Z) : list Z :=
  match width with
  | O => []
  | S width' => v mod 256 :: le_bytes width' (v / 256)
  end.

(** Where [append_message_size] writes, per profile. *)
Definition patch_offsets (a : arch) : list nat :=
  match a with
  | LinuxX86_64 | MacOSX86_64 => [24; 25; 26; 27]%nat
  | LinuxARM64 => [8; 9]%nat
  | AppleSiliconARM64 => []
  end.

(** A name long enough to make the ARM64 immediate overflow its two bytes:
    2039 characters, so that the greeting has 2048. *)
Definition long_name : string :=
  string_of_list_ascii (replicate 2039 "A"%char).

(** ** Reading the sizing loop *)

(** The largest multiple of [p] that a [size_t] can hold. *)
Definition largest_multiple (p : Z) : Z := SIZE_MAX / p * p.

(** The number of pages the loop settles on when nothing wraps. *)
Definition pages_needed (p n : Z) : Z := Z.max 1 ((n + p - 1) / p).

(** [r] is the smallest positive multiple of [p] that is at least [n]. *)
Definition smallest_positive_multiple (p n r : Z) : Prop :=
  0 < r ∧ (p | r) ∧ n <= r
  ∧ ∀ m : Z, 0 < m → (p | m) → n <= m → r <= m.

(** ** Reading a run of [main] *)

(** [machine_code.size()] when [main] reaches the [try] block. *)
Definition code_size (a : arch) (hello_name : string) : Z :=
  Z.of_nat (length (machine_code_template a))
  + (if appends_payload a then message_length hello_name else 0).

(** What [main] writes before it enters the [try] block, [printed] being
    what the loop of [show_machine_code] printed. *)
Definition preamble (a : arch) (printed : list event) : list event :=
  [ECout ("What is your name?" ++ newline); ECout "Platform detected: "]
  ++ platform_banner a
  ++ [ECout (newline ++ "Machine code generated:" ++ newline)]
  ++ printed
  ++ [ECout (newline ++ newline)].

(** What STEP 13 does with the region at [memory]. *)
Definition execute_events (k : kernel) (a : arch) (memory : Z)
    (hello_name : string) : list event :=
  match a with
  | AppleSiliconARM64 =>
      [ECall memory;
       ECout "JIT executed successfully (returned: ";
       ECoutDec (call_answer k);
       ECout (")" ++ newline);
       ECout hello_name]
  | _ => [ECall memory]
  end.

(** ** Reading the payload and the dump *)

(** The character a payload byte stands for. *)
Definition char_of_byte (b : Z) : ascii := ascii_of_N (Z.to_N b).

(** The text a run of payload bytes stands for. *)
Definition decode_payload (bytes : list Z) : string :=
  string_of_list_ascii (char_of_byte <$> bytes).

(** The rows of a dump: the hexadecimal values between two line breaks, the
    row under construction being [row]. *)
Fixpoint dump_rows (t : list event) (row : list Z) : list (list Z) :=
  match t with
  | [] => [row]
  | ECoutHex b :: t' => dump_rows t' (row ++ [b])
  | ECout s :: t' =>
      if String.eqb s newline
      then row :: dump_rows t' []
      else dump_rows t' row
  | _ :: t' => dump_rows t' row
  end.

(** The calls a trace makes to the kernel and into the generated code. *)
Definition syscalls_of (t : list event) : list event :=
  filter (λ e, is_syscall_or_call e = true) t.

(** [static_cast<size_t>] of the [long] that [sysconf] returns. *)
Definition size_t_of_long (z : Z) : Z := wrap64 z.

(** ** The earlier x86-64 revision

    Before the multi-platform [main.cpp] the program mapped its region
    readable, writable and executable in one step and handed it to a
    [std::unique_ptr] with a custom deleter.  Its [estimate_memory_size] and
    [show_machine_code] are the ones above. *)

Module Raii.

(** [#ifdef __linux__ ... #elif __APPLE__ ... #endif] around the first
    instruction of the template; on a platform that is neither, the ladder
    contributes no bytes. *)
Inductive platform : Type := Linux | Apple | Neither.

Definition machine_code_template (o : platform) : list Z :=
  match o with
  | Linux => [0x48; 0xc7; 0xc0; 0x01; 0x00; 0x00; 0x00]   (* mov rax, 1 *)
  | Apple => [0x48; 0xc7; 0xc0; 0x04; 0x00; 0x00; 0x02]   (* 0x02000004 *)
  | Neither => []
  end
  ++ [ 0x48; 0xc7; 0xc7; 0x01; 0x00; 0x00; 0x00;           (* mov rdi, 1 *)
       0x48; 0x8d; 0x35; 0x0a; 0x00; 0x00; 0x00;           (* lea rsi *)
       0x48; 0xc7; 0xc2; 0x00; 0x00; 0x00; 0x00;           (* mov rdx, 0 *)
       0x0f; 0x05;                                         (* syscall *)
       0xc3 ].                                             (* ret *)

(** This revision patches bytes 24 to 27 on every platform. *)
Definition append_message_size (machine_code : list Z)
    (hello_name : string) : option (list Z) :=
  let message_size := message_length hello_name in
  mc ← vec_store 24
         (u8 (Z.shiftr (Z.land message_size 0xFF) 0)) machine_code;
  mc ← vec_store 25
         (u8 (Z.shiftr (Z.land message_size 0xFF00) 8)) mc;
  mc ← vec_store 26
         (u8 (Z.shiftr (Z.land message_size 0xFF0000) 16)) mc;
  vec_store 27
         (u8 (Z.shiftr (Z.land message_size 0xFF000000) 24)) mc.

Definition build_machine_code (o : platform) (hello_name : string)
  : option (list Z) :=
  mc ← append_message_size (machine_code_template o) hello_name;
  Some (fold_left (λ mc character, mc ++ [byte_of_char character])
                  (list_ascii_of_string hello_name) mc).

(** Pointers are addresses; [MAP_FAILED] is [(void * ) -1]. *)
Definition MAP_FAILED : Z := SIZE_MAX.

(** The events of this revision: the one [mmap] with all three permissions,
    and the events of the later revision. *)
Inductive revent : Type :=
| MmapRWX (length : Z) (ret : Z)
| Plain (e : event).

Record rprocess : Type := RProcess {
  rmappings : gmap Z Z;          (* address to length *)
  rtrace : list revent
}.

Definition remit (es : list event) (w : rprocess) : rprocess :=
  {| rmappings := rmappings w; rtrace := rtrace w ++ (Plain <$> es) |}.

(** [mmap(nullptr, size, PROT_READ | PROT_WRITE | PROT_EXEC,
          MAP_PRIVATE | MAP_ANONYMOUS, -1, 0)] *)
Definition mmap_rwx (k : kernel) (size : Z) (w : rprocess) : Z * rprocess :=
  match mmap_answer k with
  | None =>
      (MAP_FAILED,
       {| rmappings := rmappings w;
          rtrace := rtrace w ++ [MmapRWX size MAP_FAILED] |})
  | Some addr =>
      (addr,
       {| rmappings := <[addr := size]> (rmappings w);
          rtrace := rtrace w ++ [MmapRWX size addr] |})
  end.

Definition munmap (ptr size : Z) (w : rprocess) : rprocess :=
  {| rmappings := match rmappings w !! ptr with
                  | Some len => if decide (len = size)
                                then delete ptr (rmappings w)
                                else rmappings w
                  | None => rmappings w
                  end;
     rtrace := rtrace w ++ [Plain (EMunmap ptr size)] |}.

(** [struct MmapDeleter { size_t size; operator()(uint8_t* ptr) }] *)
Record MmapDeleter : Type := { size : Z }.

Definition MmapDeleter_call (d : MmapDeleter) (ptr : Z) (w : rprocess)
  : rprocess :=
  if decide (ptr ≠ 0 ∧ ptr ≠ MAP_FAILED)
  then munmap ptr (size d) w
  else w.

(** [std::unique_ptr<uint8_t, MmapDeleter>] *)
Record ExecutableMemoryPtr : Type := {
  get : Z;
  get_deleter : MmapDeleter
}.

(** The destructor of [std::unique_ptr]: the deleter runs when the pointer
    is not null. *)
Definition destroy (p : ExecutableMemoryPtr) (w : rprocess) : rprocess :=
  if decide (get p ≠ 0)
  then MmapDeleter_call (get_deleter p) (get p) w
  else w.

Definition create_executable_memory (k : kernel) (size : Z) (w : rprocess)
  : outcome ExecutableMemoryPtr * rprocess :=
  let '(memory, w) := mmap_rwx k size w in
  if decide (memory = MAP_FAILED)
  then (Throws "Failed to allocate executable memory", w)
  else (Returns {| get := memory; get_deleter := {| size := size |} |}, w).

(** What this [main] writes before it enters the [try] block, [printed]
    being what the loop of [show_machine_code] printed. *)
Definition preamble (printed : list event) : list event :=
  [ECout ("What is your name?" ++ newline);
   ECout (newline ++ "Machine code generated:" ++ newline)]
  ++ printed
  ++ [ECout (newline ++ newline)].

Definition main (fuel : nat) (k : kernel) (o : platform) (name : string)
    (w : rprocess) : outcome Z * rprocess :=
  let hello_name := hello_name_of name in
  match build_machine_code o hello_name with
  | None => (Undefined, remit [ECout ("What is your name?" ++ newline)] w)
  | Some machine_code =>
      (* show_machine_code(machine_code) *)
      match show_bytes 0 machine_code with
      | None =>
          (Undefined, remit [ECout ("What is your name?" ++ newline)] w)
      | Some printed =>
          let w := remit (preamble printed) w in
          (* try *)
          match estimate_memory_size fuel (page_size k)
                  (Z.of_nat (length machine_code)) with
          | None => (Running, w)
          | Some required_memory_size =>
              match create_executable_memory k required_memory_size w with
              | (Returns executable_memory, w) =>
                  let w :=
                    remit [ECopy (get executable_memory) machine_code] w in
                  let w := remit [ECall (get executable_memory)] w in
                  (* the end of the block destroys [executable_memory] *)
                  let w := destroy executable_memory w in
                  (Returns EXIT_SUCCESS, w)
              | (Throws what, w) =>
                  (* catch (const std::exception& e) *)
                  (Returns EXIT_FAILURE,
                   remit [ECerr ("Error: " ++ what ++ newline)] w)
              | (Undefined, w) => (Undefined, w)
              | (Running, w) => (Running, w)
              end
          end
      end
  end.

End Raii.

(** * Properties of the code builder *)

Section Bytes.

Lemma u8_land_shiftr_0 (n : Z) :
  u8 (Z.shiftr (Z.land n 0xFF) 0) = n mod 256.
Proof.
  unfold u8. rewrite Z.shiftr_0_r.
  change 0xFF with (Z.ones 8). rewrite Z.land_ones by lia.
  change (2 ^ 8) with 256. apply Z.mod_mod. lia.
Qed.

Lemma u8_land_shiftr (n mask s : Z) :
  0 <= s → Z.shiftr mask s = 0xFF →
  u8 (Z.shiftr (Z.land n mask) s) = (n / 2 ^ s) mod 256.
Proof.
  intros Hs Hmask. unfold u8.
  rewrite Z.shiftr_land, Hmask.
  change 0xFF with (Z.ones 8). rewrite Z.land_ones by lia.
  change (2 ^ 8) with 256. rewrite Z.mod_mod by lia.
  by rewrite Z.shiftr_div_pow2.
Qed.

Lemma le_value_bytes (width : nat) (v : Z) :
  le_value (le_bytes width v) = v mod 2 ^ (8 * Z.of_nat width).
Proof.
  revert v. induction width as [|w IH]; intros v.
  - simpl. by rewrite Z.mod_1_r.
  - cbn [le_bytes le_value]. rewrite IH.
    replace (8 * Z.of_nat (S w)) with (8 + 8 * Z.of_nat w) by lia.
    rewrite Z.pow_add_r by lia. change (2 ^ 8) with 256.
    rewrite Z.rem_mul_r; [done | lia |].
    apply Z.pow_pos_nonneg; lia.
Qed.

Lemma length_le_bytes (width : nat) (v : Z) :
  length (le_bytes width v) = width.
Proof. revert v. induction width; intros; simpl; auto. Qed.

Lemma message_length_nonneg (msg : string) : 0 <= message_length msg.
Proof. unfold message_length. lia. Qed.

End Bytes.

Section Stores.

Lemma vec_store_Some (i : nat) (v : Z) (mc : list Z) :
  (i < length mc)%nat → vec_store i v mc = Some (<[i := v]> mc).
Proof. intros H. unfold vec_store. by rewrite decide_True. Qed.

Lemma vec_store_inv (i : nat) (v : Z) (mc mc' : list Z) :
  vec_store i v mc = Some mc' → (i < length mc)%nat ∧ mc' = <[i := v]> mc.
Proof. unfold vec_store. case_decide; naive_solver. Qed.

(** Four consecutive stores, as the x86-64 branches do them. *)
Lemma append_message_size_x86 (a : arch) (mc : list Z) (msg : string) :
  a = LinuxX86_64 ∨ a = MacOSX86_64 →
  (28 ≤ length mc)%nat →
  append_message_size a mc msg =
  Some (<[27%nat := (message_length msg / 2 ^ 24) mod 256]>
        (<[26%nat := (message_length msg / 2 ^ 16) mod 256]>
         (<[25%nat := (message_length msg / 2 ^ 8) mod 256]>
          (<[24%nat := message_length msg mod 256]> mc)))).
Proof.
  intros Ha Hlen.
  assert (append_message_size a mc msg =
          append_message_size LinuxX86_64 mc msg) as ->
    by (destruct Ha; by subst).
  unfold append_message_size.
  rewrite u8_land_shiftr_0, !u8_land_shiftr by (lia || reflexivity).
  rewrite vec_store_Some by lia. cbn [mbind option_bind].
  rewrite vec_store_Some by (rewrite ?length_insert; lia).
  cbn [mbind option_bind].
  rewrite vec_store_Some by (rewrite ?length_insert; lia).
  cbn [mbind option_bind].
  by rewrite vec_store_Some by (rewrite ?length_insert; lia).
Qed.

(** The value the ARM64 branch spreads over two bytes. *)
Lemma arm64_encoded_size (n : Z) :
  0 <= n →
  wrap64 (Z.shiftl (Z.land n 0xFFFF) 5) = (n mod 2 ^ 16) * 32.
Proof.
  intros Hn. unfold wrap64, SIZE_BITS.
  change 0xFFFF with (Z.ones 16). rewrite Z.land_ones by lia.
  rewrite Z.shiftl_mul_pow2 by lia. change (2 ^ 5) with 32.
  apply Z.mod_small.
  pose proof (Z.mod_pos_bound n (2 ^ 16) ltac:(lia)) as H.
  change (2 ^ 16) with 65536 in *. change (2 ^ 64) with 18446744073709551616.
  lia.
Qed.

Lemma append_message_size_arm64 (mc : list Z) (msg : string) :
  (10 ≤ length mc)%nat →
  append_message_size LinuxARM64 mc msg =
  Some (<[9%nat := (((message_length msg mod 2 ^ 16) * 32) / 2 ^ 8) mod 256]>
        (<[8%nat := ((message_length msg mod 2 ^ 16) * 32) mod 256]> mc)).
Proof.
  intros Hlen. unfold append_message_size.
  rewrite arm64_encoded_size by apply message_length_nonneg.
  rewrite u8_land_shiftr_0, !u8_land_shiftr by (lia || reflexivity).
  rewrite vec_store_Some by lia. cbn [mbind option_bind].
  by rewrite vec_store_Some by (rewrite ?length_insert; lia).
Qed.

(** The payload loop appends exactly the bytes of the message. *)
Lemma push_back_loop (cs : list ascii) (mc : list Z) :
  fold_left (λ mc character, mc ++ [byte_of_char character]) cs mc =
  mc ++ (byte_of_char <$> cs).
Proof.
  revert mc. induction cs as [|c cs IH]; intros mc; simpl.
  - by rewrite app_nil_r.
  - rewrite IH. by rewrite <- app_assoc.
Qed.

Lemma append_payload_spec (a : arch) (mc : list Z) (msg : string) :
  append_payload a mc msg =
  if appends_payload a then mc ++ payload_bytes msg else mc.
Proof.
  unfold append_payload, payload_bytes.
  destruct (appends_payload a); [apply push_back_loop | done].
Qed.

Lemma length_payload_bytes (msg : string) :
  Z.of_nat (length (payload_bytes msg)) = message_length msg.
Proof.
  unfold payload_bytes, message_length. rewrite length_fmap.
  f_equal. induction msg; simpl; auto.
Qed.

End Stores.

Section Fields.

Lemma lookup_field (off width i : nat) (l : list Z) :
  (i < width)%nat → field off width l !! i = l !! (off + i)%nat.
Proof.
  intros Hi. unfold field.
  rewrite lookup_take_lt by done. by rewrite lookup_drop.
Qed.

Lemma length_field (off width : nat) (l : list Z) :
  (off + width ≤ length l)%nat → length (field off width l) = width.
Proof.
  intros H. unfold field. rewrite length_take, length_drop. lia.
Qed.

Lemma field_two (off : nat) (l : list Z) (b0 b1 : Z) :
  l !! off = Some b0 → l !! S off = Some b1 → field off 2 l = [b0; b1].
Proof.
  intros H0 H1.
  assert (S off < length l)%nat by (by eapply lookup_lt_Some).
  apply list_eq_same_length with 2%nat;
    [done | by rewrite length_field by lia |].
  intros i x y Hi Hx Hy. rewrite lookup_field in Hx by done.
  destruct i as [|[|i]]; [| | lia]; simpl in Hy;
    rewrite ?Nat.add_0_r, ?Nat.add_1_r in Hx; congruence.
Qed.

Lemma field_four (off : nat) (l : list Z) (b0 b1 b2 b3 : Z) :
  l !! off = Some b0 → l !! S off = Some b1 →
  l !! S (S off) = Some b2 → l !! S (S (S off)) = Some b3 →
  field off 4 l = [b0; b1; b2; b3].
Proof.
  intros H0 H1 H2 H3.
  assert (S (S (S off)) < length l)%nat by (by eapply lookup_lt_Some).
  apply list_eq_same_length with 4%nat;
    [done | by rewrite length_field by lia |].
  intros i x y Hi Hx Hy. rewrite lookup_field in Hx by done.
  destruct i as [|[|[|[|i]]]]; [| | | | lia]; simpl in Hy;
    rewrite ?Nat.add_0_r, <- ?plus_n_Sm, ?Nat.add_0_r in Hx; congruence.
Qed.

End Fields.

(** The Linux x86-64 buffer for the name "World". *)
Lemma build_hello_world :
  build_machine_code LinuxX86_64 (hello_name_of "World") =
  Some ([ 0x48; 0xc7; 0xc0; 0x01; 0x00; 0x00; 0x00;
          0x48; 0xc7; 0xc7; 0x01; 0x00; 0x00; 0x00;
          0x48; 0x8d; 0x35; 0x0a; 0x00; 0x00; 0x00;
          0x48; 0xc7; 0xc2; 0x0e; 0x00; 0x00; 0x00;
          0x0f; 0x05;
          0xc3 ] ++ payload_bytes (hello_name_of "World")).
Proof. reflexivity. Qed.

(** Every template is long enough for the stores of its profile. *)
Lemma template_fits_patch (a : arch) (i : nat) :
  i ∈ patch_offsets a → (i < length (machine_code_template a))%nat.
Proof.
  intros Hi. destruct a; cbn [patch_offsets] in Hi; simpl;
    repeat (apply elem_of_cons in Hi as [-> | Hi]; [lia |]);
    by apply elem_of_nil in Hi.
Qed.

(** On the templates of [main] the patch is defined and keeps the length. *)
Lemma append_message_size_template (a : arch) (msg : string) :
  ∃ mc : list Z,
    append_message_size a (machine_code_template a) msg = Some mc
    ∧ length mc = length (machine_code_template a).
Proof.
  destruct a.
  - eexists. split; [apply append_message_size_x86; [auto | simpl; lia] |].
    by rewrite !length_insert.
  - eexists. split; [apply append_message_size_x86; [auto | simpl; lia] |].
    by rewrite !length_insert.
  - eexists. split; [apply append_message_size_arm64; simpl; lia |].
    by rewrite !length_insert.
  - by eexists.
Qed.

(** * The claims about the code builder *)

(** C1 (as amended).  On Linux x86-64 with the message "Hello, World!\n"
    (name "World"), template, length patch and payload loop produce one fixed
    byte sequence: a prefix of 31 instruction bytes (four 7-byte moves, the
    2-byte syscall, the 1-byte ret) whose bytes 24 to 27 are 0E 00 00 00,
    followed by the 14 ASCII bytes of the message. *)
Theorem hello_world_golden_bytes :
  let msg := hello_name_of "World" in
  let prefix :=
    [ 0x48; 0xc7; 0xc0; 0x01; 0x00; 0x00; 0x00;
      0x48; 0xc7; 0xc7; 0x01; 0x00; 0x00; 0x00;
      0x48; 0x8d; 0x35; 0x0a; 0x00; 0x00; 0x00;
      0x48; 0xc7; 0xc2; 0x0e; 0x00; 0x00; 0x00;
      0x0f; 0x05;
      0xc3 ] in
  message_length msg = 14
  ∧ build_machine_code LinuxX86_64 msg = Some (prefix ++ payload_bytes msg)
  ∧ length prefix = 31%nat
  ∧ field 24 4 prefix = [0x0E; 0x00; 0x00; 0x00]
  ∧ payload_bytes msg =
      [72; 101; 108; 108; 111; 44; 32; 87; 111; 114; 108; 100; 33; 10]
  ∧ length (payload_bytes msg) = 14%nat.
Proof. repeat split; reflexivity. Qed.

(** C1 as the specification words it fails: the sequence is not a 30-byte
    prefix followed by the 14 payload bytes; it has 45 bytes, not 44. *)
Lemma hello_world_prefix_not_30 :
  ¬ ∃ prefix : list Z,
      length prefix = 30%nat
      ∧ build_machine_code LinuxX86_64 (hello_name_of "World") =
        Some (prefix ++ payload_bytes (hello_name_of "World")).
Proof.
  intros (prefix & Hlen & Hbuild).
  rewrite build_hello_world in Hbuild.
  injection Hbuild as Hbuild.
  apply (f_equal length) in Hbuild.
  rewrite !length_app, Hlen in Hbuild.
  vm_compute in Hbuild. discriminate.
Qed.

(** C3.  On the two x86-64 profiles [append_message_size] overwrites bytes
    24 to 27 with the message length as a little-endian 4-byte value: the
    four low bytes of the length, least significant first.  For the name
    "Ada" the message has length 12 and the bytes are 0C 00 00 00. *)
Theorem patch_length_x86_little_endian
    (a : arch) (mc : list Z) (msg : string)
    (Ha : a = LinuxX86_64 ∨ a = MacOSX86_64)
    (Hlen : (28 ≤ length mc)%nat) :
  ∃ mc' : list Z,
    append_message_size a mc msg = Some mc'
    ∧ field 24 4 mc' = le_bytes 4 (message_length msg)
    ∧ le_value (field 24 4 mc') = message_length msg mod 2 ^ 32
    ∧ (message_length msg < 2 ^ 32 →
       le_value (field 24 4 mc') = message_length msg)
    ∧ (msg = hello_name_of "Ada" →
       message_length msg = 12
       ∧ field 24 4 mc' = [0x0C; 0x00; 0x00; 0x00]).
Proof.
  eexists. split; [by apply append_message_size_x86 |].
  match goal with |- field 24 4 ?l = _ ∧ _ =>
    assert (field 24 4 l = le_bytes 4 (message_length msg)) as Hfield
  end.
  { cbn [le_bytes]. rewrite !Z.div_div by lia.
    apply field_four.
    - rewrite !list_lookup_insert_ne by lia.
      by rewrite list_lookup_insert_eq by lia.
    - rewrite !list_lookup_insert_ne by lia.
      by rewrite list_lookup_insert_eq by (rewrite ?length_insert; lia).
    - rewrite !list_lookup_insert_ne by lia.
      by rewrite list_lookup_insert_eq by (rewrite ?length_insert; lia).
    - by rewrite list_lookup_insert_eq by (rewrite ?length_insert; lia). }
  rewrite Hfield, le_value_bytes.
  pose proof (message_length_nonneg msg) as Hnn.
  split; [done |]. split; [done |]. split.
  - intros Hsmall. apply Z.mod_small. lia.
  - intros ->. by split.
Qed.

Lemma patch_length_x86_little_endian_witness :
  (LinuxX86_64 = LinuxX86_64 ∨ LinuxX86_64 = MacOSX86_64)
  ∧ (28 ≤ length (machine_code_template LinuxX86_64))%nat
  ∧ ∃ mc' : list Z,
      append_message_size LinuxX86_64 (machine_code_template LinuxX86_64)
        (hello_name_of "Ada") = Some mc'
      ∧ field 24 4 mc' = [0x0C; 0x00; 0x00; 0x00].
Proof.
  assert (Ha : LinuxX86_64 = LinuxX86_64 ∨ LinuxX86_64 = MacOSX86_64)
    by (left; reflexivity).
  assert (Hlen : (28 ≤ length (machine_code_template LinuxX86_64))%nat)
    by (simpl; lia).
  split; [exact Ha |]. split; [exact Hlen |].
  destruct (patch_length_x86_little_endian LinuxX86_64
              (machine_code_template LinuxX86_64) (hello_name_of "Ada")
              Ha Hlen) as (mc' & Hpatch & _ & _ & _ & Hada).
  exists mc'. split; [exact Hpatch |].
  exact (proj2 (Hada eq_refl)).
Defined.

(** C4 (as amended).  On Linux ARM64 [append_message_size] overwrites bytes
    8 and 9 so that the 2-byte little-endian field holds the low 16 bits of
    [(length & 0xFFFF) << 5]; the field holds [(length & 0xFFFF) << 5] itself
    whenever the message length is at most 0x7FF. *)
Theorem patch_length_arm64_field
    (mc : list Z) (msg : string) (Hlen : (10 ≤ length mc)%nat) :
  ∃ mc' : list Z,
    append_message_size LinuxARM64 mc msg = Some mc'
    ∧ le_value (field 8 2 mc') =
      Z.shiftl (Z.land (message_length msg) 0xFFFF) 5 mod 2 ^ 16
    ∧ (message_length msg <= 0x7FF →
       le_value (field 8 2 mc') =
       Z.shiftl (Z.land (message_length msg) 0xFFFF) 5).
Proof.
  pose proof (message_length_nonneg msg) as Hnn.
  set (e := (message_length msg mod 2 ^ 16) * 32).
  assert (He : Z.shiftl (Z.land (message_length msg) 0xFFFF) 5 = e).
  { change 0xFFFF with (Z.ones 16). rewrite Z.land_ones by lia.
    by rewrite Z.shiftl_mul_pow2 by lia. }
  eexists. split; [by apply append_message_size_arm64 |].
  fold e. rewrite He.
  match goal with |- le_value (field 8 2 ?l) = _ ∧ _ =>
    assert (field 8 2 l = le_bytes 2 e) as Hfield
  end.
  { cbn [le_bytes]. apply field_two.
    - rewrite list_lookup_insert_ne by lia.
      by rewrite list_lookup_insert_eq by lia.
    - by rewrite list_lookup_insert_eq by (rewrite ?length_insert; lia). }
  rewrite Hfield, le_value_bytes. split; [done |].
  intros Hsmall. apply Z.mod_small. subst e.
  rewrite (Z.mod_small (message_length msg))
    by (change (2 ^ 16) with 65536; lia).
  change (2 ^ (8 * Z.of_nat 2)) with 65536. lia.
Qed.

Lemma patch_length_arm64_field_witness :
  (10 ≤ length (machine_code_template LinuxARM64))%nat
  ∧ ∃ mc' : list Z,
      append_message_size LinuxARM64 (machine_code_template LinuxARM64)
        (hello_name_of "Ada") = Some mc'
      ∧ le_value (field 8 2 mc') =
        Z.shiftl (Z.land (message_length (hello_name_of "Ada")) 0xFFFF) 5.
Proof.
  assert (Hlen : (10 ≤ length (machine_code_template LinuxARM64))%nat)
    by (simpl; lia).
  split; [exact Hlen |].
  destruct (patch_length_arm64_field (machine_code_template LinuxARM64)
              (hello_name_of "Ada") Hlen) as (mc' & Hpatch & _ & Hsmall).
  exists mc'. split; [exact Hpatch |].
  apply Hsmall. vm_compute. discriminate.
Defined.

(** C4 as the specification words it fails for a message of 2048 bytes:
    [(2048 & 0xFFFF) << 5] is 0x10000, and the two bytes hold 0. *)
Lemma patch_length_arm64_overflow :
  message_length (hello_name_of long_name) = 2048
  ∧ ∃ mc' : list Z,
      append_message_size LinuxARM64 (machine_code_template LinuxARM64)
        (hello_name_of long_name) = Some mc'
      ∧ le_value (field 8 2 mc') = 0
      ∧ Z.shiftl (Z.land (message_length (hello_name_of long_name)) 0xFFFF) 5
        = 65536
      ∧ le_value (field 8 2 mc') ≠
        Z.shiftl (Z.land (message_length (hello_name_of long_name)) 0xFFFF) 5.
Proof.
  split; [by vm_compute |].
  eexists. split; [by vm_compute |].
  split; [by vm_compute |]. split; [by vm_compute |].
  vm_compute. discriminate.
Qed.

(** C5.  On the Apple Silicon profile the length patch changes nothing and
    the payload loop is compiled out: for every message the buffer is the
    8-byte template [mov x0, #0; ret]. *)
Theorem restricted_profile_buffer_is_template (msg : string) :
  (∀ mc : list Z,
     append_message_size AppleSiliconARM64 mc msg = Some mc
     ∧ append_payload AppleSiliconARM64 mc msg = mc)
  ∧ machine_code_template AppleSiliconARM64 =
    [0x00; 0x00; 0x80; 0xd2; 0xc0; 0x03; 0x5f; 0xd6]
  ∧ build_machine_code AppleSiliconARM64 msg =
    Some [0x00; 0x00; 0x80; 0xd2; 0xc0; 0x03; 0x5f; 0xd6].
Proof. repeat split. Qed.

(** C9.  [append_message_size] changes only the placeholder bytes of the
    profile (24 to 27 on x86-64, 8 and 9 on Linux ARM64, none on Apple
    Silicon): the length of the buffer and every other byte stay as they
    were. *)
Theorem patch_length_frame
    (a : arch) (mc : list Z) (msg : string)
    (Hfit : ∀ i : nat, i ∈ patch_offsets a → (i < length mc)%nat) :
  ∃ mc' : list Z,
    append_message_size a mc msg = Some mc'
    ∧ length mc' = length mc
    ∧ ∀ i : nat, i ∉ patch_offsets a → mc' !! i = mc !! i.
Proof.
  destruct a; cbn [patch_offsets] in *.
  - assert (28 ≤ length mc)%nat
      by (specialize (Hfit 27%nat ltac:(set_solver)); lia).
    eexists. split; [apply append_message_size_x86; auto |].
    split; [by rewrite !length_insert |].
    intros i Hi. rewrite !list_lookup_insert_ne; [done | set_solver ..].
  - assert (28 ≤ length mc)%nat
      by (specialize (Hfit 27%nat ltac:(set_solver)); lia).
    eexists. split; [apply append_message_size_x86; auto |].
    split; [by rewrite !length_insert |].
    intros i Hi. rewrite !list_lookup_insert_ne; [done | set_solver ..].
  - assert (10 ≤ length mc)%nat
      by (specialize (Hfit 9%nat ltac:(set_solver)); lia).
    eexists. split; [by apply append_message_size_arm64 |].
    split; [by rewrite !length_insert |].
    intros i Hi. rewrite !list_lookup_insert_ne; [done | set_solver ..].
  - exists mc. by repeat split.
Qed.

Lemma patch_length_frame_witness :
  (∀ i : nat, i ∈ patch_offsets LinuxARM64 →
     (i < length (machine_code_template LinuxARM64))%nat)
  ∧ ∃ mc' : list Z,
      append_message_size LinuxARM64 (machine_code_template LinuxARM64)
        (hello_name_of "Ada") = Some mc'
      ∧ length mc' = 24%nat
      ∧ mc' !! 10%nat = Some 0x80.
Proof.
  assert (Hfit : ∀ i : nat, i ∈ patch_offsets LinuxARM64 →
            (i < length (machine_code_template LinuxARM64))%nat)
    by apply template_fits_patch.
  split; [exact Hfit |].
  destruct (patch_length_frame LinuxARM64 (machine_code_template LinuxARM64)
              (hello_name_of "Ada") Hfit) as (mc' & Hpatch & Hlength & Hrest).
  exists mc'. split; [exact Hpatch |]. split; [exact Hlength |].
  rewrite Hrest; [reflexivity |].
  cbn [patch_offsets]. intros Hi.
  apply elem_of_cons in Hi as [Hi | Hi]; [discriminate |].
  apply elem_of_cons in Hi as [Hi | Hi]; [discriminate |].
  by apply elem_of_nil in Hi.
Defined.

(** * Properties of [estimate_memory_size] *)

Section Sizing.

Lemma two_64 : 2 ^ SIZE_BITS = 18446744073709551616.
Proof. reflexivity. Qed.

Lemma wrap64_small (z : Z) : 0 <= z <= SIZE_MAX → wrap64 z = z.
Proof.
  unfold wrap64, SIZE_MAX. rewrite two_64. intros H.
  apply Z.mod_small. lia.
Qed.

Lemma wrap64_range (z : Z) : 0 <= wrap64 z <= SIZE_MAX.
Proof.
  unfold wrap64, SIZE_MAX. rewrite two_64.
  pose proof (Z.mod_pos_bound z 18446744073709551616 ltac:(lia)). lia.
Qed.

(** More iterations never change an answer already given. *)
Lemma estimate_loop_more_fuel (fuel extra : nat) (p n factor r : Z) :
  estimate_loop fuel p n factor = Some r →
  estimate_loop (fuel + extra) p n factor = Some r.
Proof.
  revert factor. induction fuel as [|fuel IH]; intros factor; [done |].
  cbn [estimate_loop Nat.add].
  destruct (n <=? wrap64 (factor * p)); [done | apply IH].
Qed.

Lemma estimate_loop_deterministic (fuel1 fuel2 : nat) (p n factor r1 r2 : Z) :
  estimate_loop fuel1 p n factor = Some r1 →
  estimate_loop fuel2 p n factor = Some r2 →
  r1 = r2.
Proof.
  intros H1 H2.
  apply (estimate_loop_more_fuel _ fuel2) in H1.
  apply (estimate_loop_more_fuel _ fuel1) in H2.
  rewrite (Nat.add_comm fuel2 fuel1) in H2. congruence.
Qed.

(** The loop counts [factor] up to [q], the first factor that fits, as
    long as no product on the way wraps. *)
Lemma estimate_loop_run (p n q : Z) :
  1 <= p → q * p <= SIZE_MAX → n <= q * p →
  (∀ f : Z, 1 <= f < q → f * p < n) →
  ∀ (d : nat) (factor : Z),
    1 <= factor → factor + Z.of_nat d = q →
    estimate_loop (S d) p n factor = Some (q * p).
Proof.
  intros Hp Hmax Hfit Hbelow.
  induction d as [|d IH]; intros factor Hf Hq.
  - assert (factor = q) as -> by lia.
    cbn [estimate_loop]. rewrite wrap64_small by nia.
    by rewrite (proj2 (Z.leb_le _ _)).
  - cbn [estimate_loop].
    rewrite (wrap64_small (factor * p)) by nia.
    rewrite (proj2 (Z.leb_gt _ _)) by (apply Hbelow; lia).
    rewrite (wrap64_small (factor + 1)) by nia.
    apply IH; lia.
Qed.

Lemma pages_needed_bounds (p n : Z) :
  1 <= p → 0 <= n →
  1 <= pages_needed p n
  ∧ n <= pages_needed p n * p
  ∧ (∀ f : Z, 1 <= f < pages_needed p n → f * p < n)
  ∧ (∀ j : Z, 1 <= j → n <= j * p → pages_needed p n <= j).
Proof.
  intros Hp Hn. unfold pages_needed.
  pose proof (Z.mul_div_le (n + p - 1) p ltac:(lia)) as Hlo.
  pose proof (Z.mul_succ_div_gt (n + p - 1) p ltac:(lia)) as Hhi.
  set (c := (n + p - 1) / p) in *.
  repeat split; intros; nia.
Qed.

Lemma pages_needed_fit (p n : Z) :
  1 <= p <= SIZE_MAX → 0 <= n <= largest_multiple p →
  pages_needed p n * p <= SIZE_MAX.
Proof.
  intros Hp [Hn Hle]. unfold largest_multiple in Hle.
  pose proof (Z.mul_div_le SIZE_MAX p ltac:(lia)) as Hlo.
  assert (1 <= SIZE_MAX / p) by (apply Z.div_le_lower_bound; lia).
  destruct (pages_needed_bounds p n ltac:(lia) Hn) as (_ & _ & _ & Hmin).
  specialize (Hmin (SIZE_MAX / p) ltac:(lia) Hle). nia.
Qed.

(** Without wrap-around the loop returns [pages_needed p n] pages. *)
Lemma estimate_memory_size_pages (p n : Z) (fuel : nat) :
  1 <= p <= SIZE_MAX → 0 <= n <= largest_multiple p →
  (Z.to_nat (pages_needed p n) ≤ fuel)%nat →
  estimate_memory_size fuel p n = Some (pages_needed p n * p).
Proof.
  intros Hp Hn Hfuel.
  destruct (pages_needed_bounds p n ltac:(lia) ltac:(lia))
    as (Hq & Hfit & Hbelow & _).
  pose proof (pages_needed_fit p n Hp Hn) as Hmax.
  set (q := pages_needed p n) in *.
  replace fuel with (S (Z.to_nat (q - 1)) + (fuel - Z.to_nat q))%nat by lia.
  apply estimate_loop_more_fuel.
  apply (estimate_loop_run p n q); [lia | done | done | done | lia | lia].
Qed.

Lemma pages_needed_smallest (p n : Z) :
  1 <= p → 0 <= n →
  smallest_positive_multiple p n (pages_needed p n * p).
Proof.
  intros Hp Hn.
  destruct (pages_needed_bounds p n Hp Hn) as (Hq & Hfit & _ & Hmin).
  repeat split; [nia | by apply Z.divide_factor_r | done |].
  intros m Hm [j ->] Hnm.
  assert (1 <= j) by nia.
  specialize (Hmin j ltac:(lia) Hnm). nia.
Qed.

(** With a page size of [2^k], every product the loop can form is a
    multiple of [2^k] below [2^64]. *)
Lemma wrap64_pow2_multiple (k factor : Z) :
  0 <= k < SIZE_BITS → wrap64 (factor * 2 ^ k) <= 2 ^ SIZE_BITS - 2 ^ k.
Proof.
  intros Hk. unfold wrap64.
  replace (2 ^ SIZE_BITS) with (2 ^ (SIZE_BITS - k) * 2 ^ k)
    by (rewrite <- Z.pow_add_r by lia; f_equal; lia).
  assert (0 < 2 ^ k) by (apply Z.pow_pos_nonneg; lia).
  assert (0 < 2 ^ (SIZE_BITS - k)) by (apply Z.pow_pos_nonneg; lia).
  rewrite Z.mul_mod_distr_r by lia.
  pose proof (Z.mod_pos_bound factor (2 ^ (SIZE_BITS - k)) ltac:(lia)).
  nia.
Qed.

Lemma largest_multiple_pow2 (k : Z) :
  0 <= k < SIZE_BITS → largest_multiple (2 ^ k) = 2 ^ SIZE_BITS - 2 ^ k.
Proof.
  intros Hk. unfold largest_multiple, SIZE_MAX.
  assert (Hsplit : 2 ^ SIZE_BITS = 2 ^ (SIZE_BITS - k) * 2 ^ k)
    by (rewrite <- Z.pow_add_r by lia; f_equal; lia).
  assert (0 < 2 ^ k) by (apply Z.pow_pos_nonneg; lia).
  assert (0 < 2 ^ (SIZE_BITS - k)) by (apply Z.pow_pos_nonneg; lia).
  assert ((2 ^ SIZE_BITS - 1) / 2 ^ k = 2 ^ (SIZE_BITS - k) - 1) as ->.
  { symmetry. apply (Z.div_unique _ _ _ (2 ^ k - 1)); [lia |].
    rewrite Hsplit. lia. }
  rewrite Hsplit. lia.
Qed.

(** Above the last page boundary a power-of-two page size never fits. *)
Lemma estimate_loop_never (k n : Z) (fuel : nat) (factor : Z) :
  0 <= k < SIZE_BITS → 2 ^ SIZE_BITS - 2 ^ k < n →
  estimate_loop fuel (2 ^ k) n factor = None.
Proof.
  intros Hk Hn. revert factor.
  induction fuel as [|fuel IH]; intros factor; [done |].
  cbn [estimate_loop].
  pose proof (wrap64_pow2_multiple k factor Hk).
  rewrite (proj2 (Z.leb_gt _ _)) by lia. apply IH.
Qed.

End Sizing.

(** * The claims about [estimate_memory_size] *)

(** C2 (as amended).  For a page size [p] that is a power of two and a byte
    count [n] of at most [2^64 - p], [estimate_memory_size] returns the
    smallest positive multiple of [p] that is at least [n]; in particular it
    returns [p] for 0 and for [p], and [2p] for [p + 1]. *)
Theorem estimate_memory_size_rounds_up
    (p k n : Z)
    (Hk : 0 <= k < SIZE_BITS) (Hp : p = 2 ^ k)
    (Hn : 0 <= n <= 2 ^ SIZE_BITS - p) :
  ∃ r : Z,
    smallest_positive_multiple p n r
    ∧ (∃ fuel : nat, estimate_memory_size fuel p n = Some r)
    ∧ (∀ (fuel : nat) (r' : Z),
         estimate_memory_size fuel p n = Some r' → r' = r)
    ∧ (n = 0 → r = p)
    ∧ (n = p → r = p)
    ∧ (n = p + 1 → r = 2 * p).
Proof.
  assert (Hpos : 0 < 2 ^ k) by (apply Z.pow_pos_nonneg; lia).
  assert (Hle : 2 ^ k <= 2 ^ 63)
    by (apply Z.pow_le_mono_r; unfold SIZE_BITS in *; lia).
  assert (Hp' : 1 <= p <= SIZE_MAX).
  { subst p. unfold SIZE_MAX. rewrite two_64.
    change (2 ^ 63) with 9223372036854775808 in Hle. lia. }
  assert (Hn' : 0 <= n <= largest_multiple p)
    by (subst p; rewrite largest_multiple_pow2 by done; lia).
  pose proof (estimate_memory_size_pages p n _ Hp' Hn' (Nat.le_refl _)) as Hrun.
  destruct (pages_needed_bounds p n ltac:(lia) ltac:(lia))
    as (Hq & Hfit & Hbelow & Hmin).
  exists (pages_needed p n * p).
  split; [apply pages_needed_smallest; lia |].
  split; [by eexists |].
  split; [intros fuel r' Hr'; symmetry;
          exact (estimate_loop_deterministic _ _ _ _ _ _ _ Hrun Hr') |].
  repeat split.
  - intros ->. specialize (Hmin 1 ltac:(lia) ltac:(lia)). nia.
  - intros Hnp. specialize (Hmin 1 ltac:(lia) ltac:(lia)). nia.
  - intros Hnp. specialize (Hmin 2 ltac:(lia) ltac:(lia)).
    assert (pages_needed p n ≠ 1) by nia. nia.
Qed.

Lemma estimate_memory_size_rounds_up_witness :
  0 <= 12 < SIZE_BITS ∧ 4096 = 2 ^ 12 ∧ 0 <= 4097 <= 2 ^ SIZE_BITS - 4096
  ∧ ∃ fuel : nat, estimate_memory_size fuel 4096 4097 = Some 8192.
Proof.
  assert (Hk : 0 <= 12 < SIZE_BITS) by (unfold SIZE_BITS; lia).
  assert (Hp : 4096 = 2 ^ 12) by reflexivity.
  assert (Hn : 0 <= 4097 <= 2 ^ SIZE_BITS - 4096) by (rewrite two_64; lia).
  split; [exact Hk |]. split; [exact Hp |]. split; [exact Hn |].
  destruct (estimate_memory_size_rounds_up 4096 12 4097 Hk Hp Hn)
    as (r & _ & Hruns & _ & _ & _ & Hnext).
  rewrite (Hnext eq_refl) in Hruns. exact Hruns.
Defined.

(** C2 as the specification words it fails for a byte count above the last
    page boundary: with 4096-byte pages and [n = 2^64 - 1] the loop never
    returns. *)
Lemma estimate_memory_size_last_page_diverges :
  4096 = 2 ^ 12
  ∧ 0 <= SIZE_MAX < 2 ^ SIZE_BITS
  ∧ ¬ ∃ (fuel : nat) (r : Z),
        estimate_memory_size fuel 4096 SIZE_MAX = Some r.
Proof.
  split; [reflexivity |]. split; [unfold SIZE_MAX; rewrite two_64; lia |].
  intros (fuel & r & Hr). unfold estimate_memory_size in Hr.
  change 4096 with (2 ^ 12) in Hr.
  rewrite estimate_loop_never in Hr; [discriminate | unfold SIZE_BITS; lia |].
  unfold SIZE_MAX. rewrite two_64. lia.
Qed.

(** C10 (as amended).  For every page size [p >= 1] and every byte count
    [n] up to the largest multiple of [p] a [size_t] holds, the loop returns:
    some factor makes [factor * p] modulo [2^64] reach [n].  For [n] above
    that bound the loop never returns when [p] is a power of two. *)
Theorem estimate_memory_size_termination
    (p n : Z) (Hp : 1 <= p <= SIZE_MAX) (Hn : 0 <= n <= SIZE_MAX) :
  (n <= largest_multiple p →
   ∃ (fuel : nat) (factor : Z),
     1 <= factor
     ∧ n <= wrap64 (factor * p)
     ∧ estimate_memory_size fuel p n = Some (wrap64 (factor * p)))
  ∧ (largest_multiple p < n →
     (∃ k : Z, 0 <= k ∧ p = 2 ^ k) →
     ∀ fuel : nat, estimate_memory_size fuel p n = None).
Proof.
  split.
  - intros Hle.
    assert (Hn' : 0 <= n <= largest_multiple p) by lia.
    destruct (pages_needed_bounds p n ltac:(lia) ltac:(lia))
      as (Hq & Hfit & _ & _).
    pose proof (pages_needed_fit p n Hp Hn') as Hmax.
    exists (Z.to_nat (pages_needed p n)), (pages_needed p n).
    rewrite wrap64_small by nia.
    split; [done |]. split; [done |].
    by apply estimate_memory_size_pages.
  - intros Hgt (k & Hk & ->) fuel.
    assert (k < SIZE_BITS).
    { destruct (Z.lt_ge_cases k SIZE_BITS) as [|Hge]; [done |].
      pose proof (Z.pow_le_mono_r 2 SIZE_BITS k ltac:(lia) Hge).
      unfold SIZE_MAX in Hp. lia. }
    rewrite largest_multiple_pow2 in Hgt by lia.
    apply estimate_loop_never; lia.
Qed.

Lemma estimate_memory_size_termination_witness :
  1 <= 4096 <= SIZE_MAX ∧ 0 <= 45 <= SIZE_MAX
  ∧ 45 <= largest_multiple 4096
  ∧ ∃ (fuel : nat) (factor : Z),
      1 <= factor
      ∧ 45 <= wrap64 (factor * 4096)
      ∧ estimate_memory_size fuel 4096 45 = Some (wrap64 (factor * 4096)).
Proof.
  assert (Hp : 1 <= 4096 <= SIZE_MAX) by (vm_compute; split; discriminate).
  assert (Hn : 0 <= 45 <= SIZE_MAX) by (vm_compute; split; discriminate).
  assert (Hle : 45 <= largest_multiple 4096) by (vm_compute; discriminate).
  split; [exact Hp |]. split; [exact Hn |]. split; [exact Hle |].
  exact (proj1 (estimate_memory_size_termination 4096 45 Hp Hn) Hle).
Defined.

(** C10 as the specification words it fails for a page size that is not a
    power of two: with [p = 3 * 2^61] and [n = 2p + 1], above the largest
    multiple [2p], the fifth product wraps to [7 * 2^61] and the loop
    returns it. *)
Lemma estimate_memory_size_wraps_and_returns :
  1 <= 0x6000000000000000 <= SIZE_MAX
  ∧ largest_multiple 0x6000000000000000 = 0xC000000000000000
  ∧ largest_multiple 0x6000000000000000 < 0xC000000000000001 <= SIZE_MAX
  ∧ estimate_memory_size 5 0x6000000000000000 0xC000000000000001
    = Some 0xE000000000000000.
Proof. vm_compute. repeat split; discriminate. Qed.

(** * Properties of the lifecycle *)

Section Lifecycle.

Variables (fuel : nat) (k : kernel) (a : arch).

Lemma process_eq (w1 w2 : process) :
  mappings w1 = mappings w2 → trace w1 = trace w2 → w1 = w2.
Proof. destruct w1, w2; simpl; congruence. Qed.

Lemma build_machine_code_total (msg : string) :
  ∃ mc : list Z,
    build_machine_code a msg = Some mc
    ∧ Z.of_nat (length mc) = code_size a msg.
Proof.
  unfold build_machine_code, code_size.
  destruct (append_message_size_template a msg) as (mc' & -> & Hlen).
  cbn [mbind option_bind]. eexists. split; [done |].
  rewrite append_payload_spec.
  destruct (appends_payload a).
  - rewrite length_app, Nat2Z.inj_add, length_payload_bytes. by rewrite Hlen.
  - rewrite Hlen. lia.
Qed.

(** The printing steps touch neither the kernel nor the error stream. *)
Lemma show_bytes_quiet (mc : list Z) :
  ∀ (counter : Z) (printed : list event),
    show_bytes counter mc = Some printed →
    Forall (λ e, is_syscall_or_call e = false ∧ stderr_of [e] = EmptyString)
           printed.
Proof.
  induction mc as [|b mc IH]; intros counter printed; cbn [show_bytes].
  - intros [= <-]. constructor.
  - case_decide; [| done].
    destruct (show_bytes (counter + 1) mc) as [rest|] eqn:Hrest; [| done].
    cbn [mbind option_bind]. intros [= <-].
    repeat (constructor; [by split |]).
    destruct (_ =? _); simpl; [constructor; [by split |] |]; by eapply IH.
Qed.

(** The loop of [show_machine_code] is defined as long as its [int] counter
    stays within [INT_MAX]. *)
Lemma show_bytes_defined (mc : list Z) :
  ∀ counter : Z,
    counter + Z.of_nat (length mc) <= INT_MAX →
    ∃ printed : list event, show_bytes counter mc = Some printed.
Proof.
  induction mc as [|b mc IH]; intros counter Hmax; cbn [show_bytes].
  - by eexists.
  - cbn [length] in Hmax. rewrite decide_True by lia.
    destruct (IH (counter + 1) ltac:(lia)) as (rest & ->).
    cbn [mbind option_bind]. by eexists.
Qed.

(** Past [INT_MAX] the loop is undefined: a buffer of [2^31] bytes or more
    makes [++counter] overflow. *)
Lemma show_bytes_overflow (mc : list Z) :
  ∀ counter : Z,
    counter <= INT_MAX →
    INT_MAX < counter + Z.of_nat (length mc) →
    show_bytes counter mc = None.
Proof.
  induction mc as [|b mc IH]; intros counter Hc Hover; cbn [show_bytes].
  - cbn [length] in Hover. lia.
  - cbn [length] in Hover. case_decide; [| done].
    by rewrite IH by lia.
Qed.

Lemma preamble_quiet (counter : Z) (mc : list Z) (printed : list event) :
  show_bytes counter mc = Some printed →
  Forall (λ e, is_syscall_or_call e = false ∧ stderr_of [e] = EmptyString)
         (preamble a printed).
Proof.
  intros Hshow. unfold preamble. rewrite !Forall_app. repeat split.
  - by repeat constructor.
  - destruct a; by repeat constructor.
  - by repeat constructor.
  - by eapply show_bytes_quiet.
  - by repeat constructor.
Qed.

Lemma string_append_assoc (s1 s2 s3 : string) :
  ((s1 ++ s2) ++ s3)%string = (s1 ++ (s2 ++ s3))%string.
Proof.
  induction s1 as [|c s1 IH]; [reflexivity |].
  change (String c ((s1 ++ s2) ++ s3) = String c (s1 ++ (s2 ++ s3)))%string.
  by rewrite IH.
Qed.

Lemma stderr_of_app (t1 t2 : list event) :
  stderr_of (t1 ++ t2) = (stderr_of t1 ++ stderr_of t2)%string.
Proof.
  induction t1 as [|e t1 IH]; [done |].
  destruct e; simpl; rewrite ?IH; try done.
  by rewrite string_append_assoc.
Qed.

Lemma stderr_of_quiet (t : list event) :
  Forall (λ e, is_syscall_or_call e = false ∧ stderr_of [e] = EmptyString) t →
  stderr_of t = EmptyString.
Proof.
  induction 1 as [|e t [_ He] _ IH]; [done |].
  change (e :: t) with ([e] ++ t). by rewrite stderr_of_app, He, IH.
Qed.

Section TryBlock.

Variables (hello_name : string) (mc : list Z) (sz : Z).
Hypothesis Hsize :
  estimate_memory_size fuel (page_size k) (Z.of_nat (length mc)) = Some sz.

(** STEP 10: [mmap] answered [MAP_FAILED]. *)
Lemma try_block_alloc_failure (w : process) :
  mmap_answer k = None →
  try_block fuel k a hello_name mc w =
  (Throws "Failed to allocate memory for machine code",
   {| mappings := mappings w;
      trace := trace w ++ [EMmap sz PROT_READ_WRITE None] |}).
Proof.
  intros Hmmap.
  unfold try_block, mbind, M_bind, returned, mmap, throw, log.
  by rewrite Hsize, Hmmap.
Qed.

(** STEP 12: [mprotect] answered -1. *)
Lemma try_block_seal_failure (w : process) (addr : Z) :
  mmap_answer k = Some addr →
  mprotect_answer k = false →
  try_block fuel k a hello_name mc w =
  (Throws "Failed to make memory executable",
   {| mappings := delete addr (mappings w);
      trace := trace w ++
               [EMmap sz PROT_READ_WRITE (Some addr);
                ECopy addr mc;
                EMprotect addr sz PROT_READ_EXEC (-1);
                EMunmap addr sz] |}).
Proof.
  intros Hmmap Hseal.
  unfold try_block, mbind, M_bind, returned, mmap, copy, emit, mprotect,
    munmap, throw, log.
  rewrite Hsize, Hmmap, Hseal. cbn -[decide].
  rewrite lookup_insert_eq. cbn -[decide]. rewrite decide_True by done.
  f_equal. apply process_eq; cbn.
  - apply delete_insert_eq.
  - by rewrite <- !app_assoc.
Qed.

(** STEPS 13 and 14: the code ran and the region was unmapped. *)
Lemma try_block_success (w : process) (addr : Z) :
  mmap_answer k = Some addr →
  mprotect_answer k = true →
  try_block fuel k a hello_name mc w =
  (Returns (),
   {| mappings := delete addr (mappings w);
      trace := trace w ++
               [EMmap sz PROT_READ_WRITE (Some addr);
                ECopy addr mc;
                EMprotect addr sz PROT_READ_EXEC 0]
               ++ execute_events k a addr hello_name
               ++ [EMunmap addr sz] |}).
Proof.
  intros Hmmap Hseal.
  unfold try_block, mbind, M_bind, returned, mmap, copy, emit, mprotect,
    munmap, throw, log.
  rewrite Hsize, Hmmap, Hseal. cbn -[decide execute execute_events].
  assert (Hexec : ∀ w0 : process,
             execute k a addr hello_name w0 =
             (Returns (),
              {| mappings := mappings w0;
                 trace := trace w0 ++ execute_events k a addr hello_name |})).
  { intros w0. unfold execute, execute_events.
    destruct a;
      unfold mbind, M_bind, mret, M_ret, call, cout, emit, log; cbn;
      by rewrite <- ?app_assoc. }
  rewrite Hexec. cbn -[decide execute_events].
  rewrite lookup_alter_eq, lookup_insert_eq. cbn -[decide execute_events].
  rewrite decide_True by done.
  f_equal. apply process_eq; cbn -[execute_events].
  - by rewrite delete_alter_eq, delete_insert_eq.
  - by rewrite <- !app_assoc.
Qed.

End TryBlock.

(** [main] is its preamble, then the [try] block, then the handler. *)
Lemma main_run (name : string) (mc : list Z) (printed : list event)
    (w : process) :
  build_machine_code a (hello_name_of name) = Some mc →
  show_bytes 0 mc = Some printed →
  main fuel k a name w =
  match try_block fuel k a (hello_name_of name) mc
          {| mappings := mappings w;
             trace := trace w ++ preamble a printed |}
  with
  | (Returns _, w1) => (Returns EXIT_SUCCESS, w1)
  | (Throws what, w1) =>
      (Returns EXIT_FAILURE, log (ECerr ("Error: " ++ what ++ newline)) w1)
  | (Undefined, w1) => (Undefined, w1)
  | (Running, w1) => (Running, w1)
  end.
Proof.
  intros Hbuild Hshow.
  unfold main, mbind, M_bind, mret, M_ret, cout, cerr, emit, defined,
    show_machine_code, try_catch, log.
  rewrite Hbuild. cbn -[try_block preamble show_bytes].
  unfold mbind, M_bind, defined. rewrite Hshow.
  cbn -[try_block preamble].
  match goal with
  | |- context [try_block _ _ _ _ _ ?W] =>
      replace W
        with {| mappings := mappings w;
                trace := trace w ++ preamble a printed |}
        by (apply process_eq; [done |];
            unfold preamble; cbn; by rewrite <- !app_assoc)
  end.
  by destruct (try_block _ _ _ _ _ _) as [[] ?].
Qed.

(** With a buffer of [2^31] bytes or more, [main] is undefined before it
    reaches the [try] block. *)
Lemma main_undefined_on_long_buffer (name : string) (w : process) :
  2 ^ 31 <= code_size a (hello_name_of name) →
  ∃ w' : process, main fuel k a name w = (Undefined, w').
Proof.
  intros Hlong.
  destruct (build_machine_code_total (hello_name_of name))
    as (mc & Hbuild & Hlen).
  assert (Hshow : show_bytes 0 mc = None)
    by (apply show_bytes_overflow; unfold INT_MAX; lia).
  unfold main, mbind, M_bind, mret, M_ret, cout, cerr, emit, defined,
    show_machine_code, try_catch, log.
  rewrite Hbuild. cbn -[try_block show_bytes].
  unfold mbind, M_bind, defined. rewrite Hshow.
  by eexists.
Qed.

Section Runs.

Variables (name : string) (sz : Z) (w : process).
Hypothesis Hsize :
  estimate_memory_size fuel (page_size k)
    (code_size a (hello_name_of name)) = Some sz.
Hypothesis Hint : code_size a (hello_name_of name) < 2 ^ 31.

(** The buffer and its dump, both defined under the two hypotheses. *)
Lemma main_buffer_and_dump :
  ∃ (mc : list Z) (printed : list event),
    build_machine_code a (hello_name_of name) = Some mc
    ∧ Z.of_nat (length mc) = code_size a (hello_name_of name)
    ∧ show_bytes 0 mc = Some printed.
Proof.
  destruct (build_machine_code_total (hello_name_of name))
    as (mc & Hbuild & Hlen).
  destruct (show_bytes_defined mc 0) as (printed & Hshow).
  { rewrite Hlen. unfold INT_MAX. lia. }
  by exists mc, printed.
Qed.

Lemma main_alloc_failure :
  mmap_answer k = None →
  ∃ (mc : list Z) (printed : list event),
    build_machine_code a (hello_name_of name) = Some mc
    ∧ show_bytes 0 mc = Some printed
    ∧ main fuel k a name w =
      (Returns EXIT_FAILURE,
       {| mappings := mappings w;
          trace := trace w ++ preamble a printed ++
            [EMmap sz PROT_READ_WRITE None;
             ECerr ("Error: Failed to allocate memory for machine code"
                    ++ newline)] |}).
Proof.
  intros Hmmap.
  destruct main_buffer_and_dump as (mc & printed & Hbuild & Hlen & Hshow).
  exists mc, printed. split; [done |]. split; [done |].
  rewrite (main_run _ _ _ _ Hbuild Hshow).
  rewrite <- Hlen in Hsize.
  rewrite (try_block_alloc_failure _ mc sz Hsize _ Hmmap).
  unfold log. f_equal. apply process_eq; [done |].
  cbn -[preamble]. rewrite <- !app_assoc. reflexivity.
Qed.

Lemma main_seal_failure (addr : Z) :
  mmap_answer k = Some addr →
  mprotect_answer k = false →
  ∃ (mc : list Z) (printed : list event),
    build_machine_code a (hello_name_of name) = Some mc
    ∧ show_bytes 0 mc = Some printed
    ∧ main fuel k a name w =
      (Returns EXIT_FAILURE,
       {| mappings := delete addr (mappings w);
          trace := trace w ++ preamble a printed ++
            [EMmap sz PROT_READ_WRITE (Some addr);
             ECopy addr mc;
             EMprotect addr sz PROT_READ_EXEC (-1);
             EMunmap addr sz;
             ECerr ("Error: Failed to make memory executable"
                    ++ newline)] |}).
Proof.
  intros Hmmap Hseal.
  destruct main_buffer_and_dump as (mc & printed & Hbuild & Hlen & Hshow).
  exists mc, printed. split; [done |]. split; [done |].
  rewrite (main_run _ _ _ _ Hbuild Hshow).
  rewrite <- Hlen in Hsize.
  rewrite (try_block_seal_failure _ mc sz Hsize _ addr Hmmap Hseal).
  unfold log. f_equal. apply process_eq; [done |].
  cbn -[preamble]. rewrite <- !app_assoc. reflexivity.
Qed.

Lemma main_success (addr : Z) :
  mmap_answer k = Some addr →
  mprotect_answer k = true →
  ∃ (mc : list Z) (printed : list event),
    build_machine_code a (hello_name_of name) = Some mc
    ∧ show_bytes 0 mc = Some printed
    ∧ main fuel k a name w =
      (Returns EXIT_SUCCESS,
       {| mappings := delete addr (mappings w);
          trace := trace w ++ preamble a printed ++
            [EMmap sz PROT_READ_WRITE (Some addr);
             ECopy addr mc;
             EMprotect addr sz PROT_READ_EXEC 0]
            ++ execute_events k a addr (hello_name_of name)
            ++ [EMunmap addr sz] |}).
Proof.
  intros Hmmap Hseal.
  destruct main_buffer_and_dump as (mc & printed & Hbuild & Hlen & Hshow).
  exists mc, printed. split; [done |]. split; [done |].
  rewrite (main_run _ _ _ _ Hbuild Hshow).
  rewrite <- Hlen in Hsize.
  rewrite (try_block_success _ mc sz Hsize _ addr Hmmap Hseal).
  f_equal. apply process_eq; [done |].
  cbn -[preamble execute_events]. rewrite <- !app_assoc. reflexivity.
Qed.

End Runs.

Lemma execute_events_quiet (addr : Z) (msg : string) :
  Forall (λ e, is_munmap e = false) (execute_events k a addr msg)
  ∧ stderr_of (execute_events k a addr msg) = EmptyString.
Proof. unfold execute_events. destruct a; split; by repeat constructor. Qed.

Lemma quiet_no_munmap (t : list event) :
  Forall (λ e, is_syscall_or_call e = false ∧ stderr_of [e] = EmptyString) t →
  Forall (λ e, is_munmap e = false ∧ ∀ addr, uses_region addr e = false) t.
Proof.
  intros Hquiet. eapply Forall_impl; [exact Hquiet |].
  intros e [He _]. by destruct e.
Qed.

End Lifecycle.


(** * The claims about the lifecycle *)

(** C6.  When [mprotect] answers -1, [munmap] is called on the region before
    the [std::runtime_error] leaves the [try] block: at the throw the
    mapping table is back to what it was before [mmap], the last event is
    the [munmap], and in [main] it precedes the line on the error stream.
    The run reaches [mprotect] when the buffer has fewer than [2^31] bytes,
    so that the [int] counter of [show_machine_code] does not overflow, and
    the sizing loop has returned. *)
Theorem seal_failure_releases_region
    (fuel : nat) (k : kernel) (a : arch) (name : string) (w : process)
    (addr sz : Z)
    (Hsize : estimate_memory_size fuel (page_size k)
               (code_size a (hello_name_of name)) = Some sz)
    (Hint : code_size a (hello_name_of name) < 2 ^ 31)
    (Hmmap : mmap_answer k = Some addr)
    (Hfresh : mappings w !! addr = None)
    (Hseal : mprotect_answer k = false) :
  ∃ (mc : list Z) (printed : list event) (w1 w2 : process),
    build_machine_code a (hello_name_of name) = Some mc
    ∧ show_bytes 0 mc = Some printed
    ∧ try_block fuel k a (hello_name_of name) mc w =
      (Throws "Failed to make memory executable", w1)
    ∧ mappings w1 = mappings w
    ∧ trace w1 = trace w ++
        [EMmap sz PROT_READ_WRITE (Some addr);
         ECopy addr mc;
         EMprotect addr sz PROT_READ_EXEC (-1);
         EMunmap addr sz]
    ∧ main fuel k a name w = (Returns EXIT_FAILURE, w2)
    ∧ mappings w2 = mappings w
    ∧ trace w2 = trace w ++ preamble a printed ++
        [EMmap sz PROT_READ_WRITE (Some addr);
         ECopy addr mc;
         EMprotect addr sz PROT_READ_EXEC (-1);
         EMunmap addr sz;
         ECerr ("Error: Failed to make memory executable" ++ newline)].
Proof.
  destruct (main_seal_failure fuel k a name sz w Hsize Hint addr Hmmap Hseal)
    as (mc & printed & Hbuild & Hshow & Hmain).
  destruct (build_machine_code_total a (hello_name_of name))
    as (mc' & Hbuild' & Hlen).
  assert (mc' = mc) as -> by congruence.
  rewrite <- Hlen in Hsize.
  exists mc, printed. eexists. eexists.
  split; [exact Hbuild |]. split; [exact Hshow |].
  split; [exact (try_block_seal_failure fuel k a _ mc sz Hsize w addr
                   Hmmap Hseal) |].
  split; [by apply delete_id |]. split; [done |].
  split; [exact Hmain |].
  split; [by apply delete_id | done].
Qed.

Lemma seal_failure_releases_region_witness :
  estimate_memory_size 1 (page_size kernel_seal_denied)
    (code_size LinuxX86_64 (hello_name_of "Ada")) = Some 4096
  ∧ code_size LinuxX86_64 (hello_name_of "Ada") < 2 ^ 31
  ∧ mmap_answer kernel_seal_denied = Some 65536
  ∧ mappings fresh_process !! 65536 = None
  ∧ mprotect_answer kernel_seal_denied = false
  ∧ ∃ w2 : process,
      main 1 kernel_seal_denied LinuxX86_64 "Ada" fresh_process =
      (Returns EXIT_FAILURE, w2)
      ∧ mappings w2 = ∅.
Proof.
  assert (Hsize : estimate_memory_size 1 (page_size kernel_seal_denied)
            (code_size LinuxX86_64 (hello_name_of "Ada")) = Some 4096)
    by reflexivity.
  assert (Hint : code_size LinuxX86_64 (hello_name_of "Ada") < 2 ^ 31)
    by reflexivity.
  assert (Hmmap : mmap_answer kernel_seal_denied = Some 65536) by reflexivity.
  assert (Hfresh : mappings fresh_process !! 65536 = None) by reflexivity.
  assert (Hseal : mprotect_answer kernel_seal_denied = false) by reflexivity.
  split; [exact Hsize |]. split; [exact Hint |]. split; [exact Hmmap |].
  split; [exact Hfresh |]. split; [exact Hseal |].
  destruct (seal_failure_releases_region 1 kernel_seal_denied LinuxX86_64
              "Ada" fresh_process 65536 4096 Hsize Hint Hmmap Hfresh Hseal)
    as (mc & printed & w1 & w2 & _ & _ & _ & _ & _ & Hmain & Hmaps & _).
  exists w2. split; [exact Hmain | exact Hmaps].
Defined.

(** C7.  On every run of [main] in which [mmap] hands out a region, whether
    [mprotect] then succeeds or fails, [munmap] is called on that region
    exactly once, nothing after that call uses the region's address or size,
    and the region is no longer mapped.  When [mmap] fails there is no
    region and [munmap] is not called.  A run reaches [mmap] when the buffer
    has fewer than [2^31] bytes, so that the [int] counter of
    [show_machine_code] does not overflow, and the sizing loop has
    returned. *)
Theorem lifecycle_releases_exactly_once
    (fuel : nat) (k : kernel) (a : arch) (name : string) (w : process)
    (sz : Z)
    (Hsize : estimate_memory_size fuel (page_size k)
               (code_size a (hello_name_of name)) = Some sz)
    (Hint : code_size a (hello_name_of name) < 2 ^ 31) :
  ∃ (code : Z) (w' : process) (events : list event),
    main fuel k a name w = (Returns code, w')
    ∧ trace w' = trace w ++ events
    ∧ match mmap_answer k with
      | Some addr =>
          ∃ before after : list event,
            events = before ++ EMunmap addr sz :: after
            ∧ EMmap sz PROT_READ_WRITE (Some addr) ∈ before
            ∧ Forall (λ e, is_munmap e = false) before
            ∧ Forall (λ e, is_munmap e = false
                           ∧ uses_region addr e = false) after
            ∧ mappings w' !! addr = None
      | None => Forall (λ e, is_munmap e = false) events
      end.
Proof.
  destruct (mmap_answer k) as [addr|] eqn:Hmmap.
  - destruct (mprotect_answer k) eqn:Hseal.
    + destruct (main_success fuel k a name sz w Hsize Hint addr Hmmap Hseal)
        as (mc & printed & _ & Hshow & Hmain).
      do 3 eexists. split; [exact Hmain |]. split; [done |].
      exists (preamble a printed ++
              [EMmap sz PROT_READ_WRITE (Some addr); ECopy addr mc;
               EMprotect addr sz PROT_READ_EXEC 0]
              ++ execute_events k a addr (hello_name_of name)), [].
      split; [by rewrite <- !app_assoc |].
      split; [set_solver |].
      split; [| split; [constructor | apply lookup_delete_eq]].
      rewrite !Forall_app. split; [| split].
      * eapply Forall_impl; [apply quiet_no_munmap, (preamble_quiet a _ _ _ Hshow) |].
        by intros e [He _].
      * by repeat constructor.
      * apply execute_events_quiet.
    + destruct (main_seal_failure fuel k a name sz w Hsize Hint addr Hmmap Hseal)
        as (mc & printed & _ & Hshow & Hmain).
      do 3 eexists. split; [exact Hmain |]. split; [done |].
      exists (preamble a printed ++
              [EMmap sz PROT_READ_WRITE (Some addr); ECopy addr mc;
               EMprotect addr sz PROT_READ_EXEC (-1)]),
             [ECerr ("Error: Failed to make memory executable" ++ newline)].
      split; [by rewrite <- !app_assoc |].
      split; [set_solver |].
      split; [| split; [by repeat constructor | apply lookup_delete_eq]].
      rewrite Forall_app. split.
      * eapply Forall_impl; [apply quiet_no_munmap, (preamble_quiet a _ _ _ Hshow) |].
        by intros e [He _].
      * by repeat constructor.
  - destruct (main_alloc_failure fuel k a name sz w Hsize Hint Hmmap)
      as (mc & printed & _ & Hshow & Hmain).
    do 3 eexists. split; [exact Hmain |]. split; [done |].
    rewrite Forall_app. split.
    + eapply Forall_impl; [apply quiet_no_munmap, (preamble_quiet a _ _ _ Hshow) |].
      by intros e [He _].
    + by repeat constructor.
Qed.

Lemma lifecycle_releases_exactly_once_witness :
  estimate_memory_size 1 (page_size kernel_granting)
    (code_size AppleSiliconARM64 (hello_name_of "Ada")) = Some 4096
  ∧ code_size AppleSiliconARM64 (hello_name_of "Ada") < 2 ^ 31
  ∧ ∃ (code : Z) (w' : process) (events : list event),
      main 1 kernel_granting AppleSiliconARM64 "Ada" fresh_process =
      (Returns code, w')
      ∧ trace w' = events
      ∧ ∃ before after : list event,
          events = before ++ EMunmap 65536 4096 :: after
          ∧ Forall (λ e, is_munmap e = false) before
          ∧ Forall (λ e, is_munmap e = false
                         ∧ uses_region 65536 e = false) after.
Proof.
  assert (Hsize : estimate_memory_size 1 (page_size kernel_granting)
            (code_size AppleSiliconARM64 (hello_name_of "Ada")) = Some 4096)
    by reflexivity.
  assert (Hint : code_size AppleSiliconARM64 (hello_name_of "Ada") < 2 ^ 31)
    by reflexivity.
  split; [exact Hsize |]. split; [exact Hint |].
  destruct (lifecycle_releases_exactly_once 1 kernel_granting
              AppleSiliconARM64 "Ada" fresh_process 4096 Hsize Hint)
    as (code & w' & events & Hmain & Htrace & Hrel).
  cbn [mmap_answer kernel_granting] in Hrel.
  destruct Hrel as (before & after & Hev & _ & Hbefore & Hafter & _).
  exists code, w', events. split; [exact Hmain |].
  split; [exact Htrace |].
  exists before, after. split; [exact Hev |].
  split; [exact Hbefore | exact Hafter].
Defined.

(** C8.  [main] returns [EXIT_SUCCESS] on a clean run and writes nothing to
    the error stream; when [mmap] or [mprotect] fails it returns
    [EXIT_FAILURE], a different code, and the error stream receives one line
    that names the step: allocating the memory, or making it executable.
    A run gets there when the buffer has fewer than [2^31] bytes, so that
    the [int] counter of [show_machine_code] does not overflow, and the
    sizing loop has returned. *)
Theorem exit_contract
    (fuel : nat) (k : kernel) (a : arch) (name : string) (w : process)
    (sz : Z)
    (Hsize : estimate_memory_size fuel (page_size k)
               (code_size a (hello_name_of name)) = Some sz)
    (Hint : code_size a (hello_name_of name) < 2 ^ 31) :
  EXIT_SUCCESS ≠ EXIT_FAILURE
  ∧ ∃ (code : Z) (w' : process) (events : list event),
      main fuel k a name w = (Returns code, w')
      ∧ trace w' = trace w ++ events
      ∧ match mmap_answer k, mprotect_answer k with
        | None, _ =>
            code = EXIT_FAILURE
            ∧ stderr_of events =
              ("Error: Failed to allocate memory for machine code"
               ++ newline)%string
        | Some _, false =>
            code = EXIT_FAILURE
            ∧ stderr_of events =
              ("Error: Failed to make memory executable" ++ newline)%string
        | Some _, true =>
            code = EXIT_SUCCESS ∧ stderr_of events = EmptyString
        end.
Proof.
  split; [discriminate |].
  destruct (mmap_answer k) as [addr|] eqn:Hmmap.
  - destruct (mprotect_answer k) eqn:Hseal.
    + destruct (main_success fuel k a name sz w Hsize Hint addr Hmmap Hseal)
        as (mc & printed & _ & Hshow & Hmain).
      do 3 eexists. split; [exact Hmain |]. split; [done |].
      split; [done |].
      rewrite !stderr_of_app, (stderr_of_quiet _ (preamble_quiet a _ _ _ Hshow)).
      by rewrite (proj2 (execute_events_quiet k a addr _)).
    + destruct (main_seal_failure fuel k a name sz w Hsize Hint addr Hmmap Hseal)
        as (mc & printed & _ & Hshow & Hmain).
      do 3 eexists. split; [exact Hmain |]. split; [done |].
      split; [done |].
      by rewrite stderr_of_app, (stderr_of_quiet _ (preamble_quiet a _ _ _ Hshow)).
  - destruct (main_alloc_failure fuel k a name sz w Hsize Hint Hmmap)
      as (mc & printed & _ & Hshow & Hmain).
    do 3 eexists. split; [exact Hmain |]. split; [done |].
    split; [done |].
    by rewrite stderr_of_app, (stderr_of_quiet _ (preamble_quiet a _ _ _ Hshow)).
Qed.

Lemma exit_contract_witness :
  estimate_memory_size 1 (page_size kernel_alloc_denied)
    (code_size LinuxARM64 (hello_name_of "Ada")) = Some 4096
  ∧ code_size LinuxARM64 (hello_name_of "Ada") < 2 ^ 31
  ∧ ∃ (w' : process),
      main 1 kernel_alloc_denied LinuxARM64 "Ada" fresh_process =
      (Returns EXIT_FAILURE, w')
      ∧ stderr_of (trace w') =
        ("Error: Failed to allocate memory for machine code"
         ++ newline)%string.
Proof.
  assert (Hsize : estimate_memory_size 1 (page_size kernel_alloc_denied)
            (code_size LinuxARM64 (hello_name_of "Ada")) = Some 4096)
    by reflexivity.
  assert (Hint : code_size LinuxARM64 (hello_name_of "Ada") < 2 ^ 31)
    by reflexivity.
  split; [exact Hsize |]. split; [exact Hint |].
  destruct (exit_contract 1 kernel_alloc_denied LinuxARM64 "Ada"
              fresh_process 4096 Hsize Hint)
    as (_ & code & w' & events & Hmain & Htrace & Hexit).
  cbn [mmap_answer kernel_alloc_denied] in Hexit. destruct Hexit as [-> Herr].
  exists w'. split; [exact Hmain |].
  rewrite Htrace. exact Herr.
Defined.

(** * Further properties of the code builder *)

Section Greeting.

Lemma list_ascii_of_string_append (s1 s2 : string) :
  list_ascii_of_string (s1 ++ s2) =
  list_ascii_of_string s1 ++ list_ascii_of_string s2.
Proof.
  induction s1 as [|c s1 IH]; [reflexivity |].
  change (c :: list_ascii_of_string (s1 ++ s2) =
          c :: (list_ascii_of_string s1 ++ list_ascii_of_string s2)).
  by rewrite IH.
Qed.

Lemma payload_bytes_append (s1 s2 : string) :
  payload_bytes (s1 ++ s2) = payload_bytes s1 ++ payload_bytes s2.
Proof.
  unfold payload_bytes. by rewrite list_ascii_of_string_append, fmap_app.
Qed.

Lemma char_of_byte_of_char (c : ascii) : char_of_byte (byte_of_char c) = c.
Proof.
  unfold char_of_byte, byte_of_char. by rewrite N2Z.id, ascii_N_embedding.
Qed.

Lemma decode_payload_bytes (msg : string) :
  decode_payload (payload_bytes msg) = msg.
Proof.
  unfold decode_payload, payload_bytes.
  induction msg as [|c msg IH]; [reflexivity |].
  cbn [list_ascii_of_string]. rewrite !fmap_cons.
  cbn [string_of_list_ascii]. by rewrite char_of_byte_of_char, IH.
Qed.

Lemma byte_of_char_range (c : ascii) : 0 <= byte_of_char c < 256.
Proof.
  unfold byte_of_char. pose proof (N_ascii_bounded c). lia.
Qed.

Lemma payload_bytes_range (msg : string) :
  Forall (λ b, 0 <= b < 256) (payload_bytes msg).
Proof.
  unfold payload_bytes. apply Forall_fmap, Forall_forall.
  intros c _. apply byte_of_char_range.
Qed.

End Greeting.

(** The greeting is the name between the seven bytes of "Hello, " and the
    two bytes of "!" and the line feed, so it is nine bytes longer than the
    name. *)
Theorem greeting_wraps_name (name : string) :
  message_length (hello_name_of name) = message_length name + 9
  ∧ payload_bytes (hello_name_of name) =
    [72; 101; 108; 108; 111; 44; 32] ++ payload_bytes name ++ [33; 10].
Proof.
  assert (Hbytes : payload_bytes (hello_name_of name) =
            [72; 101; 108; 108; 111; 44; 32] ++ payload_bytes name ++ [33; 10]).
  { unfold hello_name_of. by rewrite !payload_bytes_append. }
  split; [| exact Hbytes].
  rewrite <- !length_payload_bytes, Hbytes, !length_app. simpl length. lia.
Qed.

Section Layout.

Lemma field_app_l (off width : nat) (l1 l2 : list Z) :
  (off + width ≤ length l1)%nat →
  field off width (l1 ++ l2) = field off width l1.
Proof.
  intros H. unfold field.
  rewrite drop_app_le by lia.
  rewrite take_app_le by (rewrite length_drop; lia). done.
Qed.

Lemma template_range (a : arch) :
  Forall (λ b, 0 <= b < 256) (machine_code_template a).
Proof. destruct a; repeat constructor; lia. Qed.

Lemma mod_256_range (z : Z) : 0 <= z mod 256 < 256.
Proof. apply Z.mod_pos_bound. lia. Qed.

(** The patched template of a profile: defined, as long as the template,
    equal to it off the placeholder, and made of bytes. *)
Lemma patched_template (a : arch) (msg : string) :
  ∃ head : list Z,
    append_message_size a (machine_code_template a) msg = Some head
    ∧ length head = length (machine_code_template a)
    ∧ (∀ i : nat, i ∉ patch_offsets a →
         head !! i = machine_code_template a !! i)
    ∧ Forall (λ b, 0 <= b < 256) head.
Proof.
  pose proof (template_range a) as Hrange.
  destruct a; cbn [patch_offsets].
  - eexists. split; [apply append_message_size_x86; [auto | simpl; lia] |].
    split; [by rewrite !length_insert |]. split.
    + intros i Hi. rewrite !list_lookup_insert_ne; [done | set_solver ..].
    + repeat apply Forall_insert; auto using mod_256_range.
  - eexists. split; [apply append_message_size_x86; [auto | simpl; lia] |].
    split; [by rewrite !length_insert |]. split.
    + intros i Hi. rewrite !list_lookup_insert_ne; [done | set_solver ..].
    + repeat apply Forall_insert; auto using mod_256_range.
  - eexists. split; [apply append_message_size_arm64; simpl; lia |].
    split; [by rewrite !length_insert |]. split.
    + intros i Hi. rewrite !list_lookup_insert_ne; [done | set_solver ..].
    + repeat apply Forall_insert; auto using mod_256_range.
  - by eexists.
Qed.

End Layout.

(** For every profile and every message the buffer [main] builds is the
    patched template followed, except on Apple Silicon, by the message: its
    length is [code_size], it agrees with the template at every index
    outside the placeholder, every element is a byte, and the text can be
    read back from the bytes behind the template. *)
Theorem build_machine_code_layout (a : arch) (msg : string) :
  ∃ mc : list Z,
    build_machine_code a msg = Some mc
    ∧ Z.of_nat (length mc) = code_size a msg
    ∧ (∀ i : nat,
         (i < length (machine_code_template a))%nat →
         i ∉ patch_offsets a →
         mc !! i = machine_code_template a !! i)
    ∧ Forall (λ b, 0 <= b < 256) mc
    ∧ (appends_payload a = true →
       decode_payload (drop (length (machine_code_template a)) mc) = msg).
Proof.
  destruct (patched_template a msg) as (head & Hpatch & Hlen & Hframe & Hrange).
  unfold build_machine_code, code_size. rewrite Hpatch.
  cbn [mbind option_bind]. rewrite append_payload_spec.
  eexists. split; [done |].
  destruct (appends_payload a).
  - split; [by rewrite length_app, Nat2Z.inj_add, length_payload_bytes, Hlen |].
    split; [intros i Hi Hout; rewrite lookup_app_l by lia; auto |].
    split; [apply Forall_app; auto using payload_bytes_range |].
    intros _. rewrite <- Hlen, drop_app_length.
    apply decode_payload_bytes.
  - split; [rewrite Hlen; lia |]. split; [auto |]. split; [done |].
    discriminate.
Qed.

(** On the x86-64 profiles, for a message shorter than [2^32], the operand
    patched into [mov rdx] is the number of bytes that follow the 31
    instruction bytes, and the displacement of [lea rsi, [rip+10]], counted
    from the end of that instruction at offset 21, is the index of the
    first of them. *)
Theorem x86_operands_match_payload
    (a : arch) (msg : string)
    (Ha : a = LinuxX86_64 ∨ a = MacOSX86_64)
    (Hshort : message_length msg < 2 ^ 32) :
  ∃ mc : list Z,
    build_machine_code a msg = Some mc
    ∧ drop 31 mc = payload_bytes msg
    ∧ le_value (field 24 4 mc) = Z.of_nat (length (drop 31 mc))
    ∧ 21 + le_value (field 17 4 mc) = 31.
Proof.
  pose proof (message_length_nonneg msg) as Hnn.
  assert (Hlen : length (machine_code_template a) = 31%nat)
    by (destruct Ha; by subst).
  assert (Happ : appends_payload a = true) by (destruct Ha; by subst).
  unfold build_machine_code.
  rewrite (append_message_size_x86 a _ msg Ha) by lia.
  cbn [mbind option_bind]. rewrite append_payload_spec, Happ.
  set (head := <[27%nat:=_]> _).
  assert (Hhead : length head = 31%nat)
    by (subst head; by rewrite !length_insert).
  eexists. split; [done |].
  assert (Hdrop : drop 31 (head ++ payload_bytes msg) = payload_bytes msg)
    by (by rewrite <- Hhead, drop_app_length).
  split; [exact Hdrop |].
  rewrite Hdrop, length_payload_bytes, !field_app_l by lia.
  split.
  - subst head.
    rewrite (field_four 24 _ (message_length msg mod 256)
               ((message_length msg / 2 ^ 8) mod 256)
               ((message_length msg / 2 ^ 16) mod 256)
               ((message_length msg / 2 ^ 24) mod 256)).
    + cbn [le_value]. Z.div_mod_to_equations. lia.
    + rewrite !list_lookup_insert_ne by lia.
      by rewrite list_lookup_insert_eq by lia.
    + rewrite !list_lookup_insert_ne by lia.
      by rewrite list_lookup_insert_eq by (rewrite ?length_insert; lia).
    + rewrite !list_lookup_insert_ne by lia.
      by rewrite list_lookup_insert_eq by (rewrite ?length_insert; lia).
    + by rewrite list_lookup_insert_eq by (rewrite ?length_insert; lia).
  - subst head.
    rewrite (field_four 17 _ 0x0a 0 0 0); [reflexivity | ..];
      rewrite !list_lookup_insert_ne by lia; destruct Ha; by subst.
Qed.

Lemma x86_operands_match_payload_witness :
  (MacOSX86_64 = LinuxX86_64 ∨ MacOSX86_64 = MacOSX86_64)
  ∧ message_length (hello_name_of "Ada") < 2 ^ 32
  ∧ ∃ mc : list Z,
      build_machine_code MacOSX86_64 (hello_name_of "Ada") = Some mc
      ∧ le_value (field 24 4 mc) = 12.
Proof.
  assert (Ha : MacOSX86_64 = LinuxX86_64 ∨ MacOSX86_64 = MacOSX86_64)
    by (right; reflexivity).
  assert (Hshort : message_length (hello_name_of "Ada") < 2 ^ 32)
    by reflexivity.
  split; [exact Ha |]. split; [exact Hshort |].
  destruct (x86_operands_match_payload MacOSX86_64 (hello_name_of "Ada")
              Ha Hshort) as (mc & Hbuild & Hdrop & Hrdx & _).
  exists mc. split; [exact Hbuild |].
  rewrite Hrdx, Hdrop. reflexivity.
Defined.

(** On Linux ARM64 the store to byte 8 writes the three low bits of the
    message length above five zero bits, whatever the byte held before: the
    template's byte 8 is [0x42], whose five low bits are 2. *)
Theorem arm64_patch_zeroes_low_bits
    (mc : list Z) (msg : string) (Hlen : (10 ≤ length mc)%nat) :
  ∃ (mc' : list Z) (b8 : Z),
    append_message_size LinuxARM64 mc msg = Some mc'
    ∧ mc' !! 8%nat = Some b8
    ∧ b8 = (message_length msg mod 8) * 32
    ∧ b8 mod 32 = 0
    ∧ machine_code_template LinuxARM64 !! 8%nat = Some (2 * 32 + 2).
Proof.
  do 2 eexists. split; [by apply append_message_size_arm64 |].
  split.
  { rewrite list_lookup_insert_ne by lia.
    by rewrite list_lookup_insert_eq by lia. }
  change (2 ^ 16) with 65536.
  repeat split; Z.div_mod_to_equations; lia.
Qed.

Lemma arm64_patch_zeroes_low_bits_witness :
  (10 ≤ length (machine_code_template LinuxARM64))%nat
  ∧ ∃ mc' : list Z,
      append_message_size LinuxARM64 (machine_code_template LinuxARM64)
        (hello_name_of "Ada") = Some mc'
      ∧ mc' !! 8%nat = Some 128.
Proof.
  assert (Hlen : (10 ≤ length (machine_code_template LinuxARM64))%nat)
    by (simpl; lia).
  split; [exact Hlen |].
  destruct (arm64_patch_zeroes_low_bits (machine_code_template LinuxARM64)
              (hello_name_of "Ada") Hlen)
    as (mc' & b8 & Hpatch & Hb8 & -> & _).
  exists mc'. split; [exact Hpatch | exact Hb8].
Defined.

(** * Further properties of [show_machine_code] *)

Section Dump.

Lemma length_concat_rows (rows : list (list Z)) :
  Forall (λ r, length r = 7%nat) rows →
  Z.of_nat (length (concat rows)) = 7 * Z.of_nat (length rows).
Proof.
  induction 1 as [|r rows Hr _ IH]; [done |].
  cbn [concat]. rewrite length_app, Hr. cbn [length]. lia.
Qed.

(** Reading back what the loop printed, whatever is printed after it. *)
Lemma dump_rows_show_bytes (mc : list Z) :
  ∀ (counter : Z) (row : list Z) (printed : list event),
    0 <= counter →
    Z.of_nat (length row) = counter mod 7 →
    show_bytes counter mc = Some printed →
    ∃ (rows : list (list Z)) (last : list Z),
      (∀ rest : list event,
         dump_rows (printed ++ rest) row =
         rows ++ dump_rows rest last)
      ∧ Forall (λ r, length r = 7%nat) rows
      ∧ Z.of_nat (length last) = (counter + Z.of_nat (length mc)) mod 7
      ∧ concat rows ++ last = row ++ mc.
Proof.
  induction mc as [|b mc IH]; intros counter row printed Hc Hrow Hshow;
    cbn [show_bytes] in Hshow.
  - injection Hshow as <-. exists [], row. cbn [length].
    split; [done |]. split; [constructor |].
    split; [by rewrite Z.add_0_r | by rewrite app_nil_r].
  - case_decide; [| done].
    destruct (show_bytes (counter + 1) mc) as [tail|] eqn:Htail; [| done].
    cbn [mbind option_bind] in Hshow. injection Hshow as <-.
    assert (Hrow' : Z.of_nat (length (row ++ [b])) = counter mod 7 + 1)
      by (rewrite length_app; cbn [length]; lia).
    destruct ((counter + 1) mod 7 =? 0) eqn:Hbreak.
    + apply Z.eqb_eq in Hbreak.
      destruct (IH (counter + 1) [] tail ltac:(lia)
                  ltac:(by rewrite Hbreak) Htail)
        as (rows & last & Hrows & Hseven & Hlast & Hcat).
      exists ((row ++ [b]) :: rows), last.
      split; [intros rest; cbn; by rewrite Hrows |].
      split; [constructor; [| done] |].
      { apply Nat2Z.inj. rewrite Hrow'. Z.div_mod_to_equations. lia. }
      split; [rewrite Hlast; f_equal; cbn [length]; lia |].
      cbn [concat]. rewrite <- !app_assoc, Hcat. done.
    + apply Z.eqb_neq in Hbreak.
      destruct (IH (counter + 1) (row ++ [b]) tail ltac:(lia)) as
        (rows & last & Hrows & Hseven & Hlast & Hcat); [| done |].
      { rewrite Hrow'. Z.div_mod_to_equations. lia. }
      exists rows, last.
      split; [intros rest; cbn; by rewrite Hrows |].
      split; [done |].
      split; [rewrite Hlast; f_equal; cbn [length]; lia |].
      rewrite Hcat. by rewrite <- app_assoc.
Qed.

Lemma syscalls_of_quiet (t : list event) :
  Forall (λ e, is_syscall_or_call e = false ∧ stderr_of [e] = EmptyString) t →
  syscalls_of t = [].
Proof.
  unfold syscalls_of. induction 1 as [|e t [He _] _ IH]; [done |].
  rewrite filter_cons_False by (rewrite He; discriminate). done.
Qed.

End Dump.

(** [show_machine_code] on a buffer of fewer than [2^31] bytes (its counter
    is an [int]) prints every byte once and in order, seven to a row except
    for the last row, which has the remaining [length mod 7]; it only writes
    to standard output. *)
Theorem show_machine_code_rows
    (mc : list Z) (w : process)
    (Hint : Z.of_nat (length mc) < 2 ^ 31) :
  ∃ (w' : process) (events : list event)
    (rows : list (list Z)) (last : list Z),
    show_machine_code mc w = (Returns (), w')
    ∧ mappings w' = mappings w
    ∧ trace w' = trace w ++ events
    ∧ syscalls_of events = []
    ∧ stderr_of events = EmptyString
    ∧ dump_rows events [] = rows ++ [last]
    ∧ concat rows ++ last = mc
    ∧ Forall (λ r, length r = 7%nat) rows
    ∧ Z.of_nat (length rows) = Z.of_nat (length mc) / 7
    ∧ Z.of_nat (length last) = Z.of_nat (length mc) mod 7.
Proof.
  destruct (show_bytes_defined mc 0) as (printed & Hshow);
    [unfold INT_MAX; lia |].
  destruct (dump_rows_show_bytes mc 0 [] printed ltac:(lia) eq_refl Hshow)
    as (rows & last & Hrows & Hseven & Hlast & Hcat).
  cbn [app] in Hcat. rewrite Z.add_0_l in Hlast.
  pose proof (show_bytes_quiet mc 0 printed Hshow) as Hquiet.
  eexists. eexists. exists rows, last.
  split.
  { unfold show_machine_code, mbind, M_bind, defined. rewrite Hshow.
    reflexivity. }
  split; [done |]. split; [done |].
  assert (Hall : Forall (λ e, is_syscall_or_call e = false
                              ∧ stderr_of [e] = EmptyString)
            ([ECout (newline ++ "Machine code generated:" ++ newline)]
             ++ printed ++ [ECout (newline ++ newline)])).
  { rewrite !Forall_app. repeat split; [| done |]; by repeat constructor. }
  split; [by apply syscalls_of_quiet |].
  split; [by apply stderr_of_quiet |].
  split; [cbn; by rewrite Hrows |].
  split; [done |]. split; [done |]. split; [| done].
  pose proof (length_concat_rows rows Hseven) as Hlen.
  apply (f_equal length) in Hcat. rewrite length_app in Hcat.
  Z.div_mod_to_equations. lia.
Qed.

Lemma show_machine_code_rows_witness :
  Z.of_nat (length (machine_code_template AppleSiliconARM64)) < 2 ^ 31
  ∧ ∃ (w' : process) (events : list event),
      show_machine_code (machine_code_template AppleSiliconARM64)
        fresh_process = (Returns (), w')
      ∧ dump_rows (trace w') [] =
        [[0x00; 0x00; 0x80; 0xd2; 0xc0; 0x03; 0x5f]; [0xd6]].
Proof.
  assert (Hint : Z.of_nat (length (machine_code_template AppleSiliconARM64))
                 < 2 ^ 31) by reflexivity.
  split; [exact Hint |].
  destruct (show_machine_code_rows (machine_code_template AppleSiliconARM64)
              fresh_process Hint)
    as (w' & events & rows & last & Hshow & _).
  exists w', events. split; [exact Hshow |].
  vm_compute in Hshow. injection Hshow as <-. reflexivity.
Defined.

(** * Further properties of [estimate_memory_size] *)

Section SizingMore.

(** Whatever the page size, a size the loop returns is a [size_t] that is
    not below the byte count. *)
Lemma estimate_loop_sound (fuel : nat) (p n factor r : Z) :
  estimate_loop fuel p n factor = Some r → n <= r <= SIZE_MAX.
Proof.
  revert factor. induction fuel as [|fuel IH]; intros factor; [done |].
  cbn [estimate_loop].
  destruct (n <=? wrap64 (factor * p)) eqn:Hfit; [| apply IH].
  intros [= <-]. apply Z.leb_le in Hfit.
  pose proof (wrap64_range (factor * p)). lia.
Qed.

(** Before [factor] reaches the first multiple that fits, the loop is still
    running. *)
Lemma estimate_loop_short (p n q : Z) :
  1 <= p → q * p <= SIZE_MAX →
  (∀ f : Z, 1 <= f < q → f * p < n) →
  ∀ (fuel : nat) (factor : Z),
    1 <= factor → factor + Z.of_nat fuel <= q →
    estimate_loop fuel p n factor = None.
Proof.
  intros Hp Hmax Hbelow.
  induction fuel as [|fuel IH]; intros factor Hf Hq; [done |].
  cbn [estimate_loop].
  rewrite (wrap64_small (factor * p)) by nia.
  rewrite (proj2 (Z.leb_gt _ _)) by (apply Hbelow; lia).
  rewrite (wrap64_small (factor + 1)) by nia.
  apply IH; lia.
Qed.

Lemma estimate_loop_zero_page (n : Z) (fuel : nat) (factor : Z) :
  0 < n → estimate_loop fuel 0 n factor = None.
Proof.
  intros Hn. revert factor.
  induction fuel as [|fuel IH]; intros factor; [done |].
  cbn [estimate_loop]. rewrite Z.mul_0_r.
  change (wrap64 0) with 0.
  rewrite (proj2 (Z.leb_gt _ _)) by lia. apply IH.
Qed.

End SizingMore.

(** For every page size [p >= 1], a power of two or not, and every byte
    count up to the largest multiple of [p] a [size_t] holds, the loop
    returns after exactly [max 1 (ceil (n / p))] iterations, and what it
    returns is the smallest positive multiple of [p] that is at least [n]:
    less than one page above [n], or one page when [n] is 0. *)
Theorem estimate_memory_size_any_page_size
    (p n : Z)
    (Hp : 1 <= p <= SIZE_MAX) (Hn : 0 <= n <= largest_multiple p) :
  ∃ q r : Z,
    q = Z.max 1 ((n + p - 1) / p)
    ∧ r = q * p
    ∧ smallest_positive_multiple p n r
    ∧ r <= SIZE_MAX
    ∧ r < Z.max n 1 + p
    ∧ ∀ fuel : nat,
        estimate_memory_size fuel p n =
        if decide (q <= Z.of_nat fuel) then Some r else None.
Proof.
  destruct (pages_needed_bounds p n ltac:(lia) ltac:(lia))
    as (Hq & Hfit & Hbelow & Hmin).
  pose proof (pages_needed_fit p n Hp Hn) as Hmax.
  exists (pages_needed p n), (pages_needed p n * p).
  split; [done |]. split; [done |].
  split; [apply pages_needed_smallest; lia |].
  split; [done |]. split.
  - destruct (Z.eq_dec (pages_needed p n) 1) as [-> | Hne]; [lia |].
    specialize (Hbelow (pages_needed p n - 1) ltac:(lia)). nia.
  - intros fuel. case_decide as Hfuel.
    + apply estimate_memory_size_pages; [done | done | lia].
    + apply (estimate_loop_short p n (pages_needed p n)); [lia | done | done | lia | lia].
Qed.

Lemma estimate_memory_size_any_page_size_witness :
  1 <= 1000 <= SIZE_MAX ∧ 0 <= 2001 <= largest_multiple 1000
  ∧ estimate_memory_size 2 1000 2001 = None
  ∧ estimate_memory_size 3 1000 2001 = Some 3000.
Proof.
  assert (Hp : 1 <= 1000 <= SIZE_MAX) by (vm_compute; split; discriminate).
  assert (Hn : 0 <= 2001 <= largest_multiple 1000)
    by (vm_compute; split; discriminate).
  split; [exact Hp |]. split; [exact Hn |].
  destruct (estimate_memory_size_any_page_size 1000 2001 Hp Hn)
    as (q & r & -> & -> & _ & _ & _ & Hrun).
  split; [exact (Hrun 2%nat) | exact (Hrun 3%nat)].
Defined.

(** Degenerate page sizes.  When [sysconf] fails and returns -1, the cast
    to [size_t] makes the page size [2^64 - 1] and the first iteration
    returns [2^64 - 1] for every byte count.  With a page size of 0 the loop
    returns 0 for a byte count of 0 and never returns for any other. *)
Theorem estimate_memory_size_degenerate_page_size
    (n : Z) (fuel : nat) (Hn : 0 <= n <= SIZE_MAX) :
  estimate_memory_size (S fuel) (size_t_of_long (-1)) n = Some SIZE_MAX
  ∧ (n = 0 → estimate_memory_size (S fuel) 0 n = Some 0)
  ∧ (0 < n → estimate_memory_size fuel 0 n = None).
Proof.
  split; [| split].
  - unfold estimate_memory_size. cbn [estimate_loop].
    change (wrap64 (1 * size_t_of_long (-1))) with SIZE_MAX.
    by rewrite (proj2 (Z.leb_le _ _)) by lia.
  - by intros ->.
  - intros Hpos. by apply estimate_loop_zero_page.
Qed.

Lemma estimate_memory_size_degenerate_page_size_witness :
  0 <= 45 <= SIZE_MAX
  ∧ estimate_memory_size 1 (size_t_of_long (-1)) 45 = Some SIZE_MAX
  ∧ estimate_memory_size 1000 0 45 = None.
Proof.
  assert (Hn : 0 <= 45 <= SIZE_MAX) by (vm_compute; split; discriminate).
  split; [exact Hn |].
  split.
  - exact (proj1 (estimate_memory_size_degenerate_page_size 45 0 Hn)).
  - apply (estimate_memory_size_degenerate_page_size 45 1000 Hn).
    reflexivity.
Defined.

(** * Further properties of the lifecycle *)

Section Sequence.

Lemma syscalls_of_app (t1 t2 : list event) :
  syscalls_of (t1 ++ t2) = syscalls_of t1 ++ syscalls_of t2.
Proof. apply filter_app. Qed.

Lemma syscalls_of_execute_events (k : kernel) (a : arch) (addr : Z)
    (msg : string) :
  syscalls_of (execute_events k a addr msg) = [ECall addr].
Proof. by destruct a. Qed.

End Sequence.

(** Whenever the buffer has fewer than [2^31] bytes (the counter of
    [show_machine_code] is an [int]) and the sizing loop has returned, the
    kernel sees one fixed sequence of calls from [main]: [mmap] alone when
    it fails; otherwise [mmap], the copy of the built buffer, [mprotect],
    the call of the region only if [mprotect] succeeded, and [munmap].  The
    three kernel calls carry the same size, and the buffer copied is not
    longer than it. *)
Theorem main_syscall_sequence
    (fuel : nat) (k : kernel) (a : arch) (name : string) (w : process)
    (sz : Z)
    (Hsize : estimate_memory_size fuel (page_size k)
               (code_size a (hello_name_of name)) = Some sz)
    (Hint : code_size a (hello_name_of name) < 2 ^ 31) :
  ∃ (code : Z) (w' : process) (events : list event) (mc : list Z),
    main fuel k a name w = (Returns code, w')
    ∧ trace w' = trace w ++ events
    ∧ build_machine_code a (hello_name_of name) = Some mc
    ∧ Z.of_nat (length mc) <= sz
    ∧ syscalls_of events =
      match mmap_answer k with
      | None => [EMmap sz PROT_READ_WRITE None]
      | Some addr =>
          [EMmap sz PROT_READ_WRITE (Some addr); ECopy addr mc]
          ++ (if mprotect_answer k
              then [EMprotect addr sz PROT_READ_EXEC 0; ECall addr]
              else [EMprotect addr sz PROT_READ_EXEC (-1)])
          ++ [EMunmap addr sz]
      end.
Proof.
  destruct (build_machine_code_total a (hello_name_of name))
    as (mc0 & Hbuild0 & Hlen0).
  assert (Hfits : Z.of_nat (length mc0) <= sz).
  { rewrite Hlen0. unfold estimate_memory_size in Hsize.
    by destruct (estimate_loop_sound _ _ _ _ _ Hsize). }
  destruct (mmap_answer k) as [addr|] eqn:Hmmap.
  - destruct (mprotect_answer k) eqn:Hseal.
    + destruct (main_success fuel k a name sz w Hsize Hint addr Hmmap Hseal)
        as (mc & printed & Hbuild & Hshow & Hmain).
      assert (mc = mc0) as -> by congruence.
      do 3 eexists. exists mc0. split; [exact Hmain |]. split; [done |].
      split; [done |]. split; [done |].
      rewrite !syscalls_of_app, syscalls_of_execute_events.
      by rewrite (syscalls_of_quiet _ (preamble_quiet a _ _ _ Hshow)).
    + destruct (main_seal_failure fuel k a name sz w Hsize Hint addr Hmmap Hseal)
        as (mc & printed & Hbuild & Hshow & Hmain).
      assert (mc = mc0) as -> by congruence.
      do 3 eexists. exists mc0. split; [exact Hmain |]. split; [done |].
      split; [done |]. split; [done |].
      rewrite !syscalls_of_app.
      by rewrite (syscalls_of_quiet _ (preamble_quiet a _ _ _ Hshow)).
  - destruct (main_alloc_failure fuel k a name sz w Hsize Hint Hmmap)
      as (mc & printed & Hbuild & Hshow & Hmain).
    assert (mc = mc0) as -> by congruence.
    do 3 eexists. exists mc0. split; [exact Hmain |]. split; [done |].
    split; [done |]. split; [done |].
    rewrite !syscalls_of_app.
    by rewrite (syscalls_of_quiet _ (preamble_quiet a _ _ _ Hshow)).
Qed.

Lemma main_syscall_sequence_witness :
  estimate_memory_size 1 (page_size kernel_granting)
    (code_size LinuxX86_64 (hello_name_of "Ada")) = Some 4096
  ∧ code_size LinuxX86_64 (hello_name_of "Ada") < 2 ^ 31
  ∧ ∃ (w' : process) (mc : list Z),
      main 1 kernel_granting LinuxX86_64 "Ada" fresh_process =
      (Returns EXIT_SUCCESS, w')
      ∧ syscalls_of (trace w') =
        [EMmap 4096 PROT_READ_WRITE (Some 65536); ECopy 65536 mc;
         EMprotect 65536 4096 PROT_READ_EXEC 0; ECall 65536;
         EMunmap 65536 4096].
Proof.
  assert (Hsize : estimate_memory_size 1 (page_size kernel_granting)
            (code_size LinuxX86_64 (hello_name_of "Ada")) = Some 4096)
    by reflexivity.
  assert (Hint : code_size LinuxX86_64 (hello_name_of "Ada") < 2 ^ 31)
    by reflexivity.
  split; [exact Hsize |]. split; [exact Hint |].
  destruct (main_syscall_sequence 1 kernel_granting LinuxX86_64 "Ada"
              fresh_process 4096 Hsize Hint)
    as (code & w' & events & mc & Hmain & Htrace & _ & _ & Hcalls).
  exists w', mc. split.
  - rewrite Hmain. injection Hmain as <- _. reflexivity.
  - rewrite Htrace. exact Hcalls.
Defined.

(** On every path through [main] with a buffer of fewer than [2^31] bytes
    (the counter of [show_machine_code] is an [int]) on which the sizing
    loop has returned, the mapping table at exit is the one at entry, given
    that the address [mmap] hands out was not in use: nothing
    stays mapped after success, after a refused [mprotect], or after a
    refused [mmap]. *)
Theorem main_leaves_no_mapping
    (fuel : nat) (k : kernel) (a : arch) (name : string) (w : process)
    (sz : Z)
    (Hsize : estimate_memory_size fuel (page_size k)
               (code_size a (hello_name_of name)) = Some sz)
    (Hint : code_size a (hello_name_of name) < 2 ^ 31)
    (Hfresh : ∀ addr : Z,
        mmap_answer k = Some addr → mappings w !! addr = None) :
  ∃ (code : Z) (w' : process),
    main fuel k a name w = (Returns code, w')
    ∧ mappings w' = mappings w.
Proof.
  destruct (mmap_answer k) as [addr|] eqn:Hmmap.
  - specialize (Hfresh addr eq_refl).
    destruct (mprotect_answer k) eqn:Hseal.
    + destruct (main_success fuel k a name sz w Hsize Hint addr Hmmap Hseal)
        as (mc & printed & _ & Hshow & Hmain).
      do 2 eexists. split; [exact Hmain |]. by apply delete_id.
    + destruct (main_seal_failure fuel k a name sz w Hsize Hint addr Hmmap Hseal)
        as (mc & printed & _ & Hshow & Hmain).
      do 2 eexists. split; [exact Hmain |]. by apply delete_id.
  - destruct (main_alloc_failure fuel k a name sz w Hsize Hint Hmmap)
      as (mc & printed & _ & Hshow & Hmain).
    do 2 eexists. split; [exact Hmain |]. done.
Qed.

Lemma main_leaves_no_mapping_witness :
  estimate_memory_size 1 (page_size kernel_granting)
    (code_size LinuxARM64 (hello_name_of "Ada")) = Some 4096
  ∧ code_size LinuxARM64 (hello_name_of "Ada") < 2 ^ 31
  ∧ (∀ addr : Z,
       mmap_answer kernel_granting = Some addr →
       mappings fresh_process !! addr = None)
  ∧ ∃ (code : Z) (w' : process),
      main 1 kernel_granting LinuxARM64 "Ada" fresh_process =
      (Returns code, w')
      ∧ mappings w' = ∅.
Proof.
  assert (Hsize : estimate_memory_size 1 (page_size kernel_granting)
            (code_size LinuxARM64 (hello_name_of "Ada")) = Some 4096)
    by reflexivity.
  assert (Hint : code_size LinuxARM64 (hello_name_of "Ada") < 2 ^ 31)
    by reflexivity.
  assert (Hfresh : ∀ addr : Z,
            mmap_answer kernel_granting = Some addr →
            mappings fresh_process !! addr = None)
    by (intros addr _; reflexivity).
  split; [exact Hsize |]. split; [exact Hint |]. split; [exact Hfresh |].
  exact (main_leaves_no_mapping 1 kernel_granting LinuxARM64 "Ada"
           fresh_process 4096 Hsize Hint Hfresh).
Defined.

(** * Properties of the earlier x86-64 revision *)

Section RaiiFacts.

Lemma raii_build_linux (msg : string) :
  Raii.build_machine_code Raii.Linux msg =
  build_machine_code LinuxX86_64 msg.
Proof. reflexivity. Qed.

Lemma raii_build_apple (msg : string) :
  Raii.build_machine_code Raii.Apple msg =
  build_machine_code MacOSX86_64 msg.
Proof. reflexivity. Qed.

Lemma raii_build_total (o : Raii.platform) (msg : string) :
  o ≠ Raii.Neither →
  ∃ mc : list Z,
    Raii.build_machine_code o msg = Some mc
    ∧ Z.of_nat (length mc) = 31 + message_length msg.
Proof.
  intros Ho. destruct o; [| | done].
  - rewrite raii_build_linux.
    apply (build_machine_code_total LinuxX86_64 msg).
  - rewrite raii_build_apple.
    apply (build_machine_code_total MacOSX86_64 msg).
Qed.

Lemma rprocess_eq (w1 w2 : Raii.rprocess) :
  Raii.rmappings w1 = Raii.rmappings w2 →
  Raii.rtrace w1 = Raii.rtrace w2 → w1 = w2.
Proof. destruct w1, w2; simpl; congruence. Qed.

End RaiiFacts.

(** On Linux and on macOS the earlier revision builds byte for byte the
    buffer that the multi-platform [main.cpp] builds for the x86-64 profile
    of the same system, for every message. *)
Theorem raii_build_matches_multiplatform (msg : string) :
  Raii.build_machine_code Raii.Linux msg = build_machine_code LinuxX86_64 msg
  ∧ Raii.build_machine_code Raii.Apple msg =
    build_machine_code MacOSX86_64 msg.
Proof. split; [apply raii_build_linux | apply raii_build_apple]. Qed.

(** On a platform that is neither Linux nor macOS the earlier revision has
    no [#error]: its template lacks the first instruction and has 24 bytes,
    so the store to [machine_code[24]] is outside the vector for every
    message. *)
Theorem raii_build_unsupported_platform (msg : string) :
  length (Raii.machine_code_template Raii.Neither) = 24%nat
  ∧ Raii.append_message_size (Raii.machine_code_template Raii.Neither) msg
    = None
  ∧ Raii.build_machine_code Raii.Neither msg = None.
Proof. repeat split. Qed.

(** The earlier revision's [main], for a buffer of fewer than [2^31] bytes
    (the counter of [show_machine_code] is an [int]), once the sizing loop
    has returned and given that [mmap] hands out an unused address that is
    neither null nor [MAP_FAILED]: on success it returns [EXIT_SUCCESS] after mapping the
    region with all three permissions, copying the buffer, calling it and
    unmapping it once, with the size it was mapped with, and nothing stays
    mapped; when [mmap] fails it returns [EXIT_FAILURE], writes the error
    line, and neither copies, calls nor unmaps. *)
Theorem raii_main_lifecycle
    (fuel : nat) (k : kernel) (o : Raii.platform) (name : string)
    (w : Raii.rprocess) (sz : Z)
    (Ho : o ≠ Raii.Neither)
    (Hsize : estimate_memory_size fuel (page_size k)
               (31 + message_length (hello_name_of name)) = Some sz)
    (Hint : 31 + message_length (hello_name_of name) < 2 ^ 31)
    (Hptr : ∀ addr : Z,
        mmap_answer k = Some addr →
        addr ≠ 0 ∧ addr ≠ Raii.MAP_FAILED
        ∧ Raii.rmappings w !! addr = None) :
  ∃ (mc : list Z) (printed : list event) (code : Z) (w' : Raii.rprocess),
    Raii.build_machine_code o (hello_name_of name) = Some mc
    ∧ show_bytes 0 mc = Some printed
    ∧ Raii.main fuel k o name w = (Returns code, w')
    ∧ Raii.rmappings w' = Raii.rmappings w
    ∧ match mmap_answer k with
      | Some addr =>
          code = EXIT_SUCCESS
          ∧ Raii.rtrace w' =
            Raii.rtrace w ++ (Raii.Plain <$> Raii.preamble printed)
            ++ [Raii.MmapRWX sz addr;
                Raii.Plain (ECopy addr mc);
                Raii.Plain (ECall addr);
                Raii.Plain (EMunmap addr sz)]
      | None =>
          code = EXIT_FAILURE
          ∧ Raii.rtrace w' =
            Raii.rtrace w ++ (Raii.Plain <$> Raii.preamble printed)
            ++ [Raii.MmapRWX sz Raii.MAP_FAILED;
                Raii.Plain
                  (ECerr ("Error: Failed to allocate executable memory"
                          ++ newline))]
      end.
Proof.
  destruct (raii_build_total o (hello_name_of name) Ho)
    as (mc & Hbuild & Hlen).
  rewrite <- Hlen in Hsize, Hint.
  destruct (show_bytes_defined mc 0) as (printed & Hshow);
    [unfold INT_MAX; lia |].
  exists mc, printed. unfold Raii.main. rewrite Hbuild, Hshow, Hsize.
  unfold Raii.create_executable_memory, Raii.mmap_rwx.
  destruct (mmap_answer k) as [addr|] eqn:Hmmap.
  - destruct (Hptr addr eq_refl) as (Hnull & Hfailed & Hfresh).
    rewrite decide_False by done.
    unfold Raii.destroy, Raii.MmapDeleter_call. cbn -[Raii.preamble].
    rewrite !decide_True by done.
    unfold Raii.munmap. cbn -[Raii.preamble].
    rewrite lookup_insert_eq, decide_True by done.
    do 2 eexists. split; [done |]. split; [done |]. split; [reflexivity |].
    cbn -[Raii.preamble].
    split; [rewrite delete_insert_eq; by apply delete_id |].
    split; [done |]. by rewrite <- !app_assoc.
  - rewrite decide_True by done.
    do 2 eexists. split; [done |]. split; [done |]. split; [reflexivity |].
    cbn -[Raii.preamble].
    split; [done |]. split; [done |]. by rewrite <- !app_assoc.
Qed.

Lemma raii_main_lifecycle_witness :
  Raii.Linux ≠ Raii.Neither
  ∧ estimate_memory_size 1 (page_size kernel_granting)
      (31 + message_length (hello_name_of "Ada")) = Some 4096
  ∧ 31 + message_length (hello_name_of "Ada") < 2 ^ 31
  ∧ (∀ addr : Z,
       mmap_answer kernel_granting = Some addr →
       addr ≠ 0 ∧ addr ≠ Raii.MAP_FAILED
       ∧ Raii.rmappings (Raii.RProcess ∅ []) !! addr = None)
  ∧ ∃ w' : Raii.rprocess,
      Raii.main 1 kernel_granting Raii.Linux "Ada" (Raii.RProcess ∅ []) =
      (Returns EXIT_SUCCESS, w')
      ∧ Raii.rmappings w' = ∅.
Proof.
  assert (Ho : Raii.Linux ≠ Raii.Neither) by discriminate.
  assert (Hsize : estimate_memory_size 1 (page_size kernel_granting)
            (31 + message_length (hello_name_of "Ada")) = Some 4096)
    by reflexivity.
  assert (Hint : 31 + message_length (hello_name_of "Ada") < 2 ^ 31)
    by reflexivity.
  assert (Hptr : ∀ addr : Z,
            mmap_answer kernel_granting = Some addr →
            addr ≠ 0 ∧ addr ≠ Raii.MAP_FAILED
            ∧ Raii.rmappings (Raii.RProcess ∅ []) !! addr = None).
  { intros addr [= <-]. repeat split; discriminate. }
  split; [exact Ho |]. split; [exact Hsize |]. split; [exact Hint |].
  split; [exact Hptr |].
  destruct (raii_main_lifecycle 1 kernel_granting Raii.Linux "Ada"
              (Raii.RProcess ∅ []) 4096 Ho Hsize Hint Hptr)
    as (mc & printed & code & w' & _ & _ & Hmain & Hmaps & Hcode).
  cbn [mmap_answer kernel_granting] in Hcode. destruct Hcode as [-> _].
  exists w'. split; [exact Hmain | exact Hmaps].
Defined.
